(** * PiRadio: the base class of radio modes ([resources/basemode.py])

    A shallow embedding of [RadioBaseMode]: the Python 2 values its methods
    receive, the accent sanitizer [remove_accents], the LED helper
    [toggle_led] over a trace of GPIO calls, and the menu builder
    [_walk_menu] / [_get_menu_items] over a store of menu objects. *)

From Stdlib Require Import ZArith NArith Ascii String Lia.
From stdpp Require Import base list strings.

#[local] Set Warnings "-register-all".
#[local] Open Scope string_scope.
#[local] Open Scope list_scope.
#[local] Open Scope nat_scope.

(** ** Python values *)

(** Hashable values used as dictionary keys. *)
Inductive pykey :=
| KInt (n : Z)
| KStr (s : string)
| KUnicode (u : list N).

(** The values that reach the methods of the class.  A Python 2 [str] is a
    byte string, which is what Rocq's [string] is; a [unicode] object is a
    sequence of code points.  A [dict] is kept as the list of its entries
    (its keys are pairwise distinct). *)
Inductive pyval :=
| PNone
| PBool (b : bool)
| PInt (n : Z)
| PStr (s : string)
| PUnicode (u : list N)
| PList (l : list pyval)
| PTuple (l : list pyval)
| PDict (d : list (pykey * pyval))
| PFunc (name : string).

Definition key_val (k : pykey) : pyval :=
  match k with
  | KInt n => PInt n
  | KStr s => PStr s
  | KUnicode u => PUnicode u
  end.

(** Exceptions.  The first four are the built-in ones the code can raise;
    the last two are the names of the specification's error taxonomy. *)
Inductive pyerr :=
| TypeError
| ValueError
| AttributeError
| UnicodeDecodeError
| MalformedMenuSpec
| UnsupportedInputType.

Inductive result (A : Type) :=
| Ok (a : A)
| Err (e : pyerr).
Arguments Ok {A} a.
Arguments Err {A} e.

#[export] Instance result_bind : MBind result :=
  λ A B f r, match r with Ok a => f a | Err e => Err e end.
#[export] Instance result_ret : MRet result := λ A a, Ok a.

(** Truth value of an object, as tested by [if x:]. *)
Definition py_truthy (v : pyval) : bool :=
  match v with
  | PNone => false
  | PBool b => b
  | PInt n => negb (n =? 0)%Z
  | PStr s => negb (String.eqb s "")
  | PUnicode u => negb (bool_decide (u = []))
  | PList l | PTuple l => negb (bool_decide (length l = 0))
  | PDict d => negb (bool_decide (length d = 0))
  | PFunc _ => true
  end.

(** ** Text: byte strings and code points *)

Definition is_ascii (c : N) : bool := (c <? 128)%N.

Definition codepoints (s : string) : list N :=
  map N_of_ascii (list_ascii_of_string s).

Definition ascii_str (s : string) : bool := forallb is_ascii (codepoints s).

(** [unicode(data)] on a [str]: decoding with the default codec, ASCII,
    which refuses every byte above 127. *)
Definition unicode (s : string) : result (list N) :=
  if ascii_str s then Ok (codepoints s) else Err UnicodeDecodeError.

(** [u.encode('ASCII', 'ignore')]: code points that have no ASCII encoding
    are left out. *)
Fixpoint encode_ascii_ignore (u : list N) : string :=
  match u with
  | [] => EmptyString
  | c :: u' =>
      if is_ascii c then String (ascii_of_N c) (encode_ascii_ignore u')
      else encode_ascii_ignore u'
  end.

(** [unicodedata.normalize('NFKD', _)] belongs to the Python library: it is
    an interface here. *)
Class Unicodedata := normalize_NFKD : list N → list N.

(** The one property of the Unicode tables the development relies on: ASCII
    characters have no decomposition, so NFKD leaves ASCII text as it is. *)
Class Unicodedata_laws (U : Unicodedata) : Prop :=
  normalize_NFKD_ascii : ∀ u, forallb is_ascii u = true → normalize_NFKD u = u.

(** A fragment of the decomposition table (UnicodeData.txt): the Latin-1
    letters that carry one diacritic, each as base letter and combining
    mark.  The instance built on it agrees with NFKD on ASCII text and on
    these letters, which is what the examples need. *)
Definition latin1_table : list (N * list N) :=
  [ (192, [65; 768]); (193, [65; 769]); (194, [65; 770]); (195, [65; 771]);
    (196, [65; 776]); (197, [65; 778]); (199, [67; 807]); (200, [69; 768]);
    (201, [69; 769]); (202, [69; 770]); (203, [69; 776]); (204, [73; 768]);
    (205, [73; 769]); (206, [73; 770]); (207, [73; 776]); (209, [78; 771]);
    (210, [79; 768]); (211, [79; 769]); (212, [79; 770]); (213, [79; 771]);
    (214, [79; 776]); (217, [85; 768]); (218, [85; 769]); (219, [85; 770]);
    (220, [85; 776]); (221, [89; 769]); (224, [97; 768]); (225, [97; 769]);
    (226, [97; 770]); (227, [97; 771]); (228, [97; 776]); (229, [97; 778]);
    (231, [99; 807]); (232, [101; 768]); (233, [101; 769]); (234, [101; 770]);
    (235, [101; 776]); (236, [105; 768]); (237, [105; 769]); (238, [105; 770]);
    (239, [105; 776]); (241, [110; 771]); (242, [111; 768]); (243, [111; 769]);
    (244, [111; 770]); (245, [111; 771]); (246, [111; 776]); (249, [117; 768]);
    (250, [117; 769]); (251, [117; 770]); (252, [117; 776]); (253, [121; 769]);
    (255, [121; 776]) ]%N.

Fixpoint table_lookup (c : N) (t : list (N * list N)) : option (list N) :=
  match t with
  | [] => None
  | (k, d) :: t' => if (k =? c)%N then Some d else table_lookup c t'
  end.

Definition latin1_decompose (c : N) : list N :=
  if is_ascii c then [c]
  else match table_lookup c latin1_table with
       | Some d => d
       | None => [c]
       end.

Definition latin1_NFKD (u : list N) : list N :=
  flat_map latin1_decompose u.

#[export] Instance latin1 : Unicodedata := latin1_NFKD.

(** ** The accent sanitizer *)

Section Sanitizer.
Context `{Unicodedata}.

Section DictValues.
Variable f : pyval → result pyval.

(** [{key: f(data[key]) for key in data}]: the keys of a dict are
    distinct, so [data[key]] is the value of the entry of [key]. *)
Fixpoint dict_comprehension (d : list (pykey * pyval))
  : result (list (pykey * pyval)) :=
  match d with
  | [] => Ok []
  | (key, v) :: d' =>
      v' ← f v;
      r ← dict_comprehension d';
      Ok ((key, v') :: r)
  end.
End DictValues.

(** [RadioBaseMode.remove_accents].  [normalize] accepts only a [unicode]
    object and raises [TypeError] on anything else. *)
Fixpoint remove_accents (data : pyval) : result pyval :=
  match data with
  | PDict d =>
      d' ← dict_comprehension remove_accents d;
      Ok (PDict d')
  | PStr s =>
      u ← unicode s;
      Ok (PStr (encode_ascii_ignore (normalize_NFKD u)))
  | PUnicode u =>
      Ok (PStr (encode_ascii_ignore (normalize_NFKD u)))
  | PNone | PBool _ | PInt _ | PList _ | PTuple _ | PFunc _ =>
      Err TypeError
  end.
End Sanitizer.

(** ** The mode instance and the GPIO *)

(** The calls made on the [pigpio.pi] object, in the order they are made. *)
Inductive gpio_call :=
| set_mode_OUTPUT (pin : pyval)
| write (pin : pyval) (level : Z).

(** Objects live in a store and are known by their address, so that an
    object reached from two places (a child from its parent, a parent from
    its child) is one object. *)
Abbreviation addr := nat (only parsing).

(** The attributes of an instance.  [pi] and [display_q] are references to
    collaborators ([None] when not given); [menu] is the attribute a
    concrete mode defines ([PNone] or an empty list when it has no menu);
    [modemenu] is unset until [build_menu] has run. *)
Record RadioBaseMode := {
  pi : option nat;
  led_pin : pyval;
  display_q : option nat;
  menu : pyval;
  modemenu : option addr
}.

(** [RadioBaseMode.__init__]; [menu] is what the subclass defines. *)
Definition __init__ (pi : option nat) (led_pin : pyval) (display_q : option nat)
    (menu : pyval) (gpio : list gpio_call) : RadioBaseMode * list gpio_call :=
  let self := {| pi := pi; led_pin := led_pin; display_q := display_q;
                 menu := menu; modemenu := None |} in
  if bool_decide (is_Some pi) && py_truthy led_pin
  then (self, gpio ++ [set_mode_OUTPUT led_pin])
  else (self, gpio).

(** [RadioBaseMode.toggle_led], on a boolean [state]: [int(True)] is 1 and
    [int(False)] is 0.  [self.pi.write] on a missing [pi] is an attribute
    access on [None]. *)
Definition toggle_led (self : RadioBaseMode) (state : bool)
    (gpio : list gpio_call) : result (list gpio_call) :=
  if py_truthy (led_pin self) then
    match pi self with
    | Some _ => Ok (gpio ++ [write (led_pin self) (Z.b2z state)])
    | None => Err AttributeError
    end
  else Ok gpio.

(** A sequence of [toggle_led] calls. *)
Fixpoint toggle_led_seq (self : RadioBaseMode) (states : list bool)
    (gpio : list gpio_call) : result (list gpio_call) :=
  match states with
  | [] => Ok gpio
  | state :: states' =>
      gpio' ← toggle_led self state gpio;
      toggle_led_seq self states' gpio'
  end.

(** The [write] calls of a trace. *)
Definition writes (gpio : list gpio_call) : list (pyval * Z) :=
  flat_map (λ c, match c with
                 | write pin level => [(pin, level)]
                 | set_mode_OUTPUT _ => []
                 end) gpio.

(** ** Menu objects *)

Inductive menu_class := RadioMenuItem | RadioSubmenu | RadioMenuMode.

(** What selecting an item does: hand out the target given in the menu
    specification, or go back to the parent of submenu [sub]. *)
Inductive item_target :=
| Target (v : pyval)
| Back (sub : addr).

Record menu_obj := MenuObj {
  obj_class : menu_class;
  obj_text : pyval;
  obj_target : item_target;
  obj_items : list addr;
  obj_parent : option addr
}.

Abbreviation store := (list menu_obj) (only parsing).

(** Object creation: the new object gets the next free address. *)
Definition new (o : menu_obj) (st : store) : addr * store :=
  (length st, st ++ [o]).

(** Modelled from the spec: the constructors of [menubase.RadioMenuItem],
    [menubase.RadioSubmenu] and [menubase.RadioMenuMode], which are not among
    the sources.  An Item has a label and an action; a Submenu has a label, an
    ordered sequence of children and a reference to its parent; the Root
    behaves like a Submenu and has no parent.  All start without children and
    without parent; a container has no target of its own. *)
Definition RadioMenuItem_new (text target : pyval) : menu_obj :=
  MenuObj RadioMenuItem text (Target target) [] None.
Definition RadioSubmenu_new (text : pyval) : menu_obj :=
  MenuObj RadioSubmenu text (Target PNone) [] None.
Definition RadioMenuMode_new : menu_obj :=
  MenuObj RadioMenuMode PNone (Target PNone) [] None.

Definition set_items (o : menu_obj) (items : list addr) : menu_obj :=
  MenuObj (obj_class o) (obj_text o) (obj_target o) items (obj_parent o).
Definition set_parent (o : menu_obj) (parent : option addr) : menu_obj :=
  MenuObj (obj_class o) (obj_text o) (obj_target o) (obj_items o) parent.

(** Modelled from the spec: [add_item] of [menubase], which is not among the
    sources.  The item is appended after the children already there and its
    parent reference is set; a plain item has no children to add to. *)
Definition add_item (parent item : addr) (st : store) : result store :=
  match st !! parent with
  | Some po =>
      match obj_class po with
      | RadioMenuItem => Err AttributeError
      | RadioSubmenu | RadioMenuMode =>
          let st1 := <[parent := set_items po (obj_items po ++ [item])]> st in
          match st1 !! item with
          | Some io => Ok (<[item := set_parent io (Some parent)]> st1)
          | None => Err AttributeError
          end
      end
  | None => Err AttributeError
  end.

(** Modelled from the spec: [add_back_item] of [menubase.RadioSubmenu], which
    is not among the sources: one more Item labelled "Back" whose action,
    when invoked, navigates to the parent of the submenu.  The item refers to
    the submenu, not to its parent: [_walk_menu] adds the item before the
    submenu is attached to a parent. *)
Definition add_back_item (sub : addr) (st : store) : result store :=
  let '(back, st1) :=
    new (MenuObj RadioMenuItem (PStr "Back") (Back sub) [] None) st in
  add_item sub back st1.

(** Modelled from the spec: the class of the Root is not a subclass of
    [RadioSubmenu] ("the Root never receives this item"). *)
Definition isinstance_RadioSubmenu (st : store) (a : addr) : bool :=
  match st !! a with
  | Some o => match obj_class o with RadioSubmenu => true | _ => false end
  | None => false
  end.

(** Modelled from the spec: invoking the "Back" item of a submenu leads to
    the parent that the submenu has at that moment; other items do not
    navigate. *)
Definition invoke (st : store) (item : addr) : option addr :=
  o ← st !! item;
  match obj_target o with
  | Back sub => s ← st !! sub; obj_parent s
  | Target _ => None
  end.

(** ** The menu builder *)

(** Iteration over a value, as a [for] loop does. *)
Definition py_iter (v : pyval) : result (list pyval) :=
  match v with
  | PList l | PTuple l => Ok l
  | PStr s => Ok (map (λ c, PStr (String c EmptyString)) (list_ascii_of_string s))
  | PUnicode u => Ok (map (λ c, PUnicode [c]) u)
  | PDict d => Ok (map (λ kv, key_val kv.1) d)
  | PNone | PBool _ | PInt _ | PFunc _ => Err TypeError
  end.

(** [text, target = e]: [e] must yield exactly two values. *)
Definition unpack_pair (e : pyval) : result (pyval * pyval) :=
  es ← py_iter e;
  match es with
  | [text; target] => Ok (text, target)
  | _ => Err ValueError
  end.

Definition is_list (v : pyval) : bool :=
  match v with PList _ => true | _ => false end.

(** [parent.add_item(RadioMenuItem(text, target))] *)
Definition add_leaf (text target : pyval) (parent : addr) (st : store)
  : result store :=
  let '(item, st1) := new (RadioMenuItem_new text target) st in
  add_item parent item st1.

Section WalkLoop.
(** The recursive call [self._walk_menu]. *)
Variable walk : pyval → addr → store → result (addr * store).

(** One round of the loop of [_walk_menu].  The pair is taken apart in
    place when the entry is a list or a tuple, so that the recursive call
    is on a component of the menu; entries of other types go through
    [unpack_pair], and what they yield (characters, keys) is never a list.
    Lemma [walk_entry_source] gives the round as the source writes it. *)
Definition walk_entry (e : pyval) (parent : addr) (st : store)
  : result store :=
  match e with
  | PList [text; target] | PTuple [text; target] =>
      match target with
      | PList _ =>
          let '(sub, st1) := new (RadioSubmenu_new text) st in
          '(submenu, st2) ← walk target sub st1;
          add_item parent submenu st2
      | _ => add_leaf text target parent st
      end
  | _ =>
      '(text, target) ← unpack_pair e;
      add_leaf text target parent st
  end.

Fixpoint walk_loop (es : list pyval) (parent : addr) (st : store)
  : result store :=
  match es with
  | [] => Ok st
  | e :: es' =>
      st' ← walk_entry e parent st;
      walk_loop es' parent st'
  end.
End WalkLoop.

(** The end of [_walk_menu]: the "Back" option of a submenu, and
    [return parent]. *)
Definition walk_finish (parent : addr) (st : store) : result (addr * store) :=
  if isinstance_RadioSubmenu st parent then
    st' ← add_back_item parent st;
    Ok (parent, st')
  else Ok (parent, st).

(** [RadioBaseMode._walk_menu].  A menu that is a string or a dict only
    yields characters or keys, for which the loop never makes the recursive
    call, so that what stands for it there is immaterial.  Lemma
    [_walk_menu_source] gives the method as the source writes it. *)
Fixpoint _walk_menu (menu : pyval) (parent : addr) (st : store) {struct menu}
  : result (addr * store) :=
  match menu with
  | PList es | PTuple es =>
      st' ← walk_loop _walk_menu es parent st;
      walk_finish parent st'
  | PStr _ | PUnicode _ | PDict _ =>
      es ← py_iter menu;
      st' ← walk_loop (λ _ _ _, Err TypeError) es parent st;
      walk_finish parent st'
  | PNone | PBool _ | PInt _ | PFunc _ => Err TypeError
  end.

(** [RadioBaseMode._get_menu_items] *)
Definition _get_menu_items (self : RadioBaseMode) (st : store)
  : result (addr * store) :=
  let '(base, st1) := new RadioMenuMode_new st in
  if py_truthy (menu self) then _walk_menu (menu self) base st1
  else Ok (base, st1).

(** [RadioBaseMode.build_menu]: the instance keeps the root in [modemenu];
    nothing is assigned when the construction raises. *)
Definition build_menu (self : RadioBaseMode) (st : store)
  : result (RadioBaseMode * store) :=
  '(root, st') ← _get_menu_items self st;
  Ok ({| pi := pi self; led_pin := led_pin self; display_q := display_q self;
         menu := menu self; modemenu := Some root |}, st').

(** ** Reading a menu out of the store *)

(** The menu below an object, as a value; [BackItem] is an item whose
    action is to go back to the parent menu. *)
Inductive menu_tree :=
| Item (text : pyval) (target : pyval)
| BackItem (text : pyval)
| Submenu (text : pyval) (children : list menu_tree)
| Root (children : list menu_tree).

Section ReadChildren.
Variable read : addr → option menu_tree.
Fixpoint read_children (items : list addr) : option (list menu_tree) :=
  match items with
  | [] => Some []
  | a :: items' =>
      t ← read a;
      ts ← read_children items';
      Some (t :: ts)
  end.
End ReadChildren.

Fixpoint read_node (fuel : nat) (st : store) (a : addr) : option menu_tree :=
  match fuel with
  | O => None
  | S fuel' =>
      o ← st !! a;
      match obj_class o with
      | RadioMenuItem =>
          match obj_target o with
          | Target v => Some (Item (obj_text o) v)
          | Back _ => Some (BackItem (obj_text o))
          end
      | RadioSubmenu =>
          ts ← read_children (read_node fuel' st) (obj_items o);
          Some (Submenu (obj_text o) ts)
      | RadioMenuMode =>
          ts ← read_children (read_node fuel' st) (obj_items o);
          Some (Root ts)
      end
  end.

(** No path in a store is longer than the store. *)
Definition read_menu (st : store) (a : addr) : option menu_tree :=
  read_node (length st) st a.

Definition play_settings_menu : pyval :=
  PList [ PTuple [PStr "Play"; PFunc "play_action"];
          PTuple [PStr "Settings";
                  PList [ PTuple [PStr "Volume"; PFunc "vol_action"] ]] ].

(** * What the specification talks about *)

(** ** Inputs and results of the sanitizer *)

(** Valid inputs: text, or a mapping whose values are valid.  Text is a
    [unicode] object or a [str] that the default codec can decode. *)
Fixpoint valid_input (data : pyval) : bool :=
  match data with
  | PUnicode _ => true
  | PStr s => ascii_str s
  | PDict d => forallb (λ '(_, v), valid_input v) d
  | PNone | PBool _ | PInt _ | PList _ | PTuple _ | PFunc _ => false
  end.

(** The byte string whose bytes are the given code points. *)
Definition str_of_codepoints (u : list N) : string :=
  string_of_list_ascii (map ascii_of_N u).

(** The sanitizer as the specification words it: on text, NFKD then every
    code point outside the 7-bit range dropped; on a mapping, the same keys
    with every value sanitized. *)
Fixpoint sanitize `{Unicodedata} (data : pyval) : pyval :=
  match data with
  | PDict d => PDict (map (λ '(k, v), (k, sanitize v)) d)
  | PStr s =>
      PStr (str_of_codepoints (List.filter is_ascii (normalize_NFKD (codepoints s))))
  | PUnicode u =>
      PStr (str_of_codepoints (List.filter is_ascii (normalize_NFKD u)))
  | other => other
  end.

(** [a == b] on text: a [str] and a [unicode] object are compared after
    decoding the [str]. *)
Definition py_text_eq (a b : pyval) : bool :=
  match a, b with
  | PStr s, PStr s' => bool_decide (s = s')
  | PUnicode u, PUnicode u' => bool_decide (u = u')
  | PStr s, PUnicode u | PUnicode u, PStr s =>
      ascii_str s && bool_decide (codepoints s = u)
  | _, _ => false
  end.

(** Text made of 7-bit characters only. *)
Definition ascii_text (data : pyval) : bool :=
  match data with
  | PStr s => ascii_str s
  | PUnicode u => forallb is_ascii u
  | _ => false
  end.

(** u"café" and u"Déjà vu" *)
Definition cafe : list N := [99; 97; 102; 233]%N.
Definition deja_vu : list N := [68; 233; 106; 224; 32; 118; 117]%N.

(** ** Well-formed menu specifications *)

Section WfEntry.
Variable wf : pyval → bool.
(** A pair of a label and a target; the target is a nested specification
    when it is a list, and an action otherwise.  Neither the label nor the
    action is looked at by the code, and neither is constrained here. *)
Definition wf_entry (e : pyval) : bool :=
  match e with
  | PTuple [text; target] => if is_list target then wf target else true
  | _ => false
  end.
End WfEntry.

Fixpoint wf_menu (menu : pyval) : bool :=
  match menu with
  | PList es => forallb (wf_entry wf_menu) es
  | _ => false
  end.

Fixpoint py_size (v : pyval) : nat :=
  match v with
  | PList l | PTuple l => S (list_sum (map py_size l))
  | _ => 1
  end.

(** The number of objects an entry gives rise to. *)
Fixpoint nodes (e : pyval) : nat :=
  match e with
  | PTuple [_; PList sub] => 2 + list_sum (map nodes sub)
  | _ => 1
  end.

(** The menu the specification describes for an entry: an Item for an
    action; for a nested specification a Submenu with the children of the
    nested entries, in their order, followed by the "Back" item. *)
Fixpoint spec_node (e : pyval) : menu_tree :=
  match e with
  | PTuple [text; PList sub] =>
      Submenu text (map spec_node sub ++ [BackItem (PStr "Back")])
  | PTuple [text; target] => Item text target
  | _ => Item PNone PNone
  end.

Definition spec_root (menu : pyval) : menu_tree :=
  match menu with
  | PList es => Root (map spec_node es)
  | _ => Root []
  end.

Fixpoint height (t : menu_tree) : nat :=
  match t with
  | Item _ _ | BackItem _ => 1
  | Submenu _ ts | Root ts => S (foldr (λ t n, height t `max` n) 0 ts)
  end.

(** The entry found in a specification by following child positions. *)
Fixpoint entry_at (es : list pyval) (path : list nat) : option pyval :=
  match path with
  | [] => None
  | i :: path' =>
      e ← es !! i;
      match path' with
      | [] => Some e
      | _ :: _ =>
          match e with
          | PTuple [_; PList sub] => entry_at sub path'
          | _ => None
          end
      end
  end.

(** The object found in the store by following child positions. *)
Fixpoint node_at (st : store) (a : addr) (path : list nat) : option addr :=
  match path with
  | [] => Some a
  | i :: path' =>
      o ← st !! a;
      c ← obj_items o !! i;
      node_at st c path'
  end.

(** Is the object a synthesized "Back" item? *)
Definition is_back (st : store) (a : addr) : bool :=
  match st !! a with
  | Some o => match obj_target o with Back _ => true | Target _ => false end
  | None => false
  end.

(** [repr lo st par a e]: in store [st], the object at [a] and the objects
    below it, all at addresses from [lo] on, are the menu of entry [e] with
    parent [par]. *)
Inductive repr (lo : nat) (st : store) : addr → addr → pyval → Prop :=
| repr_item par a text target :
    lo ≤ a →
    is_list target = false →
    st !! a = Some (MenuObj RadioMenuItem text (Target target) [] (Some par)) →
    repr lo st par a (PTuple [text; target])
| repr_sub par a text sub kids back :
    lo ≤ a →
    lo ≤ back →
    st !! a = Some (MenuObj RadioSubmenu text (Target PNone) (kids ++ [back])
                      (Some par)) →
    Forall2 (repr lo st a) kids sub →
    st !! back = Some (MenuObj RadioMenuItem (PStr "Back") (Back a) []
                         (Some a)) →
    repr lo st par a (PTuple [text; PList sub]).

(** ** Measures and outcomes used in the proofs *)

Definition entries_size (es : list pyval) : nat := list_sum (map py_size es).
Definition entries_nodes (es : list pyval) : nat := list_sum (map nodes es).

Definition heights (ts : list menu_tree) : nat :=
  foldr (λ t n, height t `max` n) 0 ts.

(** Values that are neither lists nor tuples. *)
Definition atom (e : pyval) : Prop :=
  match e with PList _ | PTuple _ => False | _ => True end.

(** The outcome of a walk below [parent], started in store [st] where
    [parent] is the container [po]: either the parent is still a container
    of the same class in a store that has only grown, or the exception is one
    of the two that iteration and unpacking raise. *)
Definition walk_outcome (parent : addr) (st : store) (po : menu_obj)
    (r : result store) : Prop :=
  (∃ st', r = Ok st'
     ∧ length st ≤ length st'
     ∧ (∀ x, x < length st → x ≠ parent → st' !! x = st !! x)
     ∧ ∃ po', st' !! parent = Some po' ∧ obj_class po' = obj_class po)
  ∨ (∃ e, r = Err e ∧ (e = TypeError ∨ e = ValueError)).

Definition walk_sound (walk : pyval → addr → store → result (addr * store))
    (n : nat) : Prop :=
  ∀ target parent st po,
    py_size target ≤ n →
    st !! parent = Some po → obj_class po ≠ RadioMenuItem →
    walk_outcome parent st po
      ('(a, st') ← walk target parent st; Ok st')
    ∧ ∀ a st', walk target parent st = Ok (a, st') → a = parent.

(** * The rest of the class *)

(** ** The display queue *)

(** [RadioBaseMode.show_text].  [queue] is the content of the [Queue] object
    that [display_q] refers to, oldest item first: [put] adds at the end.  A
    [Queue] instance is true whatever it holds, so the test is on the
    presence of the reference. *)
Definition show_text `{Unicodedata} (self : RadioBaseMode) (key text : pyval)
    (queue : list (pyval * pyval)) : result (list (pyval * pyval)) :=
  match display_q self with
  | Some _ =>
      text' ← remove_accents text;
      Ok (queue ++ [(key, text')])
  | None => Ok queue
  end.

(** A sequence of [show_text] calls, each given as its key and its text. *)
Fixpoint show_text_seq `{Unicodedata} (self : RadioBaseMode)
    (calls : list (pyval * pyval)) (queue : list (pyval * pyval))
  : result (list (pyval * pyval)) :=
  match calls with
  | [] => Ok queue
  | (key, text) :: calls' =>
      queue' ← show_text self key text queue;
      show_text_seq self calls' queue'
  end.

(** Values the display can take: byte strings of 7-bit characters, and
    mappings of such values. *)
Fixpoint ascii_value (v : pyval) : bool :=
  match v with
  | PStr s => ascii_str s
  | PDict d => forallb (λ '(_, v), ascii_value v) d
  | _ => false
  end.

(** ** The exception of a construction *)

Section EntryError.
(** The exception of the walk of a nested menu, if it raises. *)
Variable check : pyval → option pyerr.

(** The exception of one round of the loop: that of the unpacking, or that
    of the walk of the nested menu. *)
Definition entry_error (e : pyval) : option pyerr :=
  match e with
  | PList [_; target] | PTuple [_; target] =>
      match target with
      | PList _ => check target
      | _ => None
      end
  | _ =>
      match unpack_pair e with
      | Err err => Some err
      | Ok _ => None
      end
  end.

(** The exception of the first round that raises. *)
Fixpoint loop_error (es : list pyval) : option pyerr :=
  match es with
  | [] => None
  | e :: es' =>
      match entry_error e with
      | Some err => Some err
      | None => loop_error es'
      end
  end.
End EntryError.

(** The exception that walking a menu raises, read off the menu alone:
    [TypeError] for a value that cannot be iterated, [ValueError] for an
    entry that does not yield two values, whichever the walk meets first. *)
Fixpoint walk_error (menu : pyval) : option pyerr :=
  match menu with
  | PList es | PTuple es => loop_error walk_error es
  | PStr _ | PUnicode _ | PDict _ =>
      match py_iter menu with
      | Ok es => loop_error (λ _, None) es
      | Err err => Some err
      end
  | PNone | PBool _ | PInt _ | PFunc _ => Some TypeError
  end.

(** The outcome of a walk below [parent], told by the menu: the exception
    when [check] gives one, and otherwise a store that has only grown, with
    the parent still a container of the same class. *)
Definition walk_exact (check : pyval → option pyerr)
    (walk : pyval → addr → store → result (addr * store)) (n : nat) : Prop :=
  ∀ target parent st po,
    py_size target ≤ n →
    st !! parent = Some po → obj_class po ≠ RadioMenuItem →
    match check target with
    | Some err => walk target parent st = Err err
    | None =>
        ∃ st', walk target parent st = Ok (parent, st')
          ∧ length st ≤ length st'
          ∧ (∀ x, x < length st → x ≠ parent → st' !! x = st !! x)
          ∧ ∃ po', st' !! parent = Some po' ∧ obj_class po' = obj_class po
    end.

(** ** Text that the default codec decodes *)



(** * Proofs *)

(** ** Induction on values *)

Lemma pyval_nested_ind (P : pyval → Prop) :
  P PNone → (∀ b, P (PBool b)) → (∀ n, P (PInt n)) → (∀ s, P (PStr s)) →
  (∀ u, P (PUnicode u)) →
  (∀ l, Forall P l → P (PList l)) →
  (∀ l, Forall P l → P (PTuple l)) →
  (∀ d, Forall (λ kv, P kv.2) d → P (PDict d)) →
  (∀ name, P (PFunc name)) →
  ∀ v, P v.
Proof.
  intros HNone HBool HInt HStr HUni HList HTuple HDict HFunc.
  fix IH 1. intros [ | b | n | s | u | l | l | d | name ].
  - exact HNone.
  - apply HBool.
  - apply HInt.
  - apply HStr.
  - apply HUni.
  - apply HList. induction l as [ | x l IHl ]; constructor; [ apply IH | exact IHl ].
  - apply HTuple. induction l as [ | x l IHl ]; constructor; [ apply IH | exact IHl ].
  - apply HDict. induction d as [ | [k x] d IHd ]; constructor; [ apply IH | exact IHd ].
  - apply HFunc.
Qed.

(** ** Text *)

Lemma is_ascii_embedding c : is_ascii c = true → N_of_ascii (ascii_of_N c) = c.
Proof.
  unfold is_ascii. intros Hc. apply N.ltb_lt in Hc.
  apply N_ascii_embedding. lia.
Qed.

Lemma encode_ascii_ignore_filter u :
  encode_ascii_ignore u = str_of_codepoints (List.filter is_ascii u).
Proof.
  unfold str_of_codepoints.
  induction u as [ | c u IH ]; simpl; [ reflexivity | ].
  destruct (is_ascii c); simpl; [ f_equal | ]; exact IH.
Qed.

Lemma codepoints_str_of_codepoints u :
  forallb is_ascii u = true → codepoints (str_of_codepoints u) = u.
Proof.
  unfold codepoints, str_of_codepoints.
  rewrite list_ascii_of_string_of_list_ascii.
  induction u as [ | c u IH ]; simpl; [ reflexivity | ].
  intros [Hc Hu]%andb_prop. rewrite is_ascii_embedding, IH; auto.
Qed.

Lemma str_of_codepoints_codepoints s : str_of_codepoints (codepoints s) = s.
Proof.
  unfold codepoints, str_of_codepoints.
  rewrite map_map.
  rewrite (map_ext _ id); [ | intros a; apply ascii_N_embedding ].
  rewrite map_id. apply string_of_list_ascii_of_string.
Qed.

Lemma forallb_filter_id {A} (f : A → bool) l :
  forallb f l = true → List.filter f l = l.
Proof.
  induction l as [ | x l IH ]; simpl; [ reflexivity | ].
  intros [Hx Hl]%andb_prop. rewrite Hx, IH; auto.
Qed.

Lemma forallb_filter {A} (f : A → bool) l : forallb f (List.filter f l) = true.
Proof.
  induction l as [ | x l IH ]; simpl; [ reflexivity | ].
  destruct (f x) eqn:Hx; simpl; [ rewrite Hx | ]; exact IH.
Qed.

Lemma ascii_str_of_codepoints u :
  forallb is_ascii u = true → ascii_str (str_of_codepoints u) = true.
Proof.
  intros Hu. unfold ascii_str. rewrite codepoints_str_of_codepoints; auto.
Qed.

(** ** The Latin-1 table as an instance of the interface *)

Lemma latin1_NFKD_ascii u : forallb is_ascii u = true → latin1_NFKD u = u.
Proof.
  unfold latin1_NFKD.
  induction u as [ | c u IH ]; simpl; [ reflexivity | ].
  intros [Hc Hu]%andb_prop. unfold latin1_decompose at 1.
  rewrite Hc. simpl. f_equal. auto.
Qed.

#[export] Instance latin1_laws : Unicodedata_laws latin1 := latin1_NFKD_ascii.

(** ** The sanitizer *)

Section SanitizerProofs.
Context {U : Unicodedata} {UL : Unicodedata_laws U}.

Lemma sanitize_text u :
  let s := str_of_codepoints (List.filter is_ascii (normalize_NFKD u)) in
  ascii_str s = true ∧
  str_of_codepoints (List.filter is_ascii (normalize_NFKD (codepoints s))) = s.
Proof.
  intros s. assert (Hs : ascii_str s = true)
    by apply ascii_str_of_codepoints, forallb_filter.
  split; [ exact Hs | ].
  rewrite normalize_NFKD_ascii by exact Hs.
  rewrite forallb_filter_id by exact Hs.
  apply str_of_codepoints_codepoints.
Qed.

(** On valid input the code computes what the specification describes. *)
Lemma remove_accents_valid data :
  valid_input data = true → remove_accents data = Ok (sanitize data).
Proof.
  induction data as [ | | | s | u | | | d IH | ] using pyval_nested_ind;
    simpl; try discriminate.
  - intros Hs. unfold unicode. rewrite Hs. simpl.
    by rewrite encode_ascii_ignore_filter.
  - intros _. by rewrite encode_ascii_ignore_filter.
  - intros Hd.
    assert (Hc : dict_comprehension remove_accents d
                 = Ok (map (λ '(k, v), (k, sanitize v)) d)).
    { induction d as [ | [k v] d IHd ]; simpl; [ reflexivity | ].
      simpl in Hd. apply andb_prop in Hd as [Hv Hd].
      inversion IH as [ | ? ? IHv IHd' ]; subst.
      simpl in IHv. rewrite (IHv Hv). simpl.
      rewrite (IHd IHd' Hd). reflexivity. }
    rewrite Hc. reflexivity.
Qed.

Lemma sanitize_valid data :
  valid_input data = true → valid_input (sanitize data) = true.
Proof.
  induction data as [ | | | s | u | | | d IH | ] using pyval_nested_ind;
    simpl; try discriminate.
  - intros _. apply sanitize_text.
  - intros _. apply sanitize_text.
  - induction d as [ | [k v] d IHd ]; simpl; [ reflexivity | ].
    intros [Hv Hd]%andb_prop.
    inversion IH as [ | ? ? IHv IHd' ]; subst. simpl in IHv.
    rewrite (IHv Hv). simpl. auto.
Qed.

Lemma sanitize_idempotent data :
  valid_input data = true → sanitize (sanitize data) = sanitize data.
Proof.
  induction data as [ | | | s | u | | | d IH | ] using pyval_nested_ind;
    simpl; try discriminate.
  - intros _. f_equal. apply sanitize_text.
  - intros _. f_equal. apply sanitize_text.
  - intros Hd. f_equal.
    induction d as [ | [k v] d IHd ]; simpl; [ reflexivity | ].
    simpl in Hd. apply andb_prop in Hd as [Hv Hd].
    inversion IH as [ | ? ? IHv IHd' ]; subst. simpl in IHv.
    rewrite (IHv Hv). f_equal. auto.
Qed.

(** An input that is not valid makes the code raise. *)
Lemma remove_accents_invalid data :
  valid_input data = false →
  ∃ e, remove_accents data = Err e ∧ (e = TypeError ∨ e = UnicodeDecodeError).
Proof.
  induction data as [ | | | s | u | | | d IH | ] using pyval_nested_ind;
    simpl; try discriminate; try (intros _; eexists; split; eauto; fail).
  - intros Hs. unfold unicode. rewrite Hs. simpl. eauto.
  - intros Hd.
    assert (Hc : ∃ e, dict_comprehension remove_accents d = Err e
                      ∧ (e = TypeError ∨ e = UnicodeDecodeError)).
    { induction d as [ | [k v] d IHd ]; simpl in *; [ discriminate | ].
      inversion IH as [ | ? ? IHv IHd' ]; subst. simpl in IHv.
      destruct (valid_input v) eqn:Hv.
      - rewrite (remove_accents_valid v Hv). simpl.
        destruct (IHd IHd' Hd) as (e & -> & He). simpl. eauto.
      - destruct (IHv eq_refl) as (e & -> & He). simpl. eauto. }
    destruct Hc as (e & -> & He). simpl. eauto.
Qed.
End SanitizerProofs.



(** C6: the sanitizer is idempotent: on a valid input it returns a value
    on which it returns that same value again. *)
Theorem remove_accents_idempotent {U : Unicodedata} {UL : Unicodedata_laws U}
    (data : pyval) (Hvalid : valid_input data = true) :
  ∃ out, remove_accents data = Ok out ∧ remove_accents out = Ok out.
Proof.
  exists (sanitize data). split.
  - by apply remove_accents_valid.
  - rewrite remove_accents_valid by by apply sanitize_valid.
    by rewrite sanitize_idempotent.
Qed.

Lemma remove_accents_idempotent_witness :
  ∃ out, remove_accents (PDict [(KStr "artist", PUnicode deja_vu)]) = Ok out
         ∧ remove_accents out = Ok out.
Proof.
  exact (remove_accents_idempotent
           (PDict [(KStr "artist", PUnicode deja_vu)]) eq_refl).
Defined.

(** On text made of 7-bit characters only the sanitizer returns the same
    text (a [str] comes back as it is, a [unicode] object as the [str] with
    the same characters, equal to it), and it raises on no [unicode]
    object. *)
Lemma remove_accents_ascii_identity {U : Unicodedata}
    {UL : Unicodedata_laws U} :
  (∀ data, ascii_text data = true →
     ∃ s, remove_accents data = Ok (PStr s)
          ∧ py_text_eq (PStr s) data = true
          ∧ (∀ s0, data = PStr s0 → s = s0)) ∧
  (∀ u, ∃ s, remove_accents (PUnicode u) = Ok (PStr s)).
Proof.
  split.
  - intros [ | | | s | u | | | | ] Hascii; simpl in Hascii; try discriminate.
    + exists s. rewrite remove_accents_valid by exact Hascii. simpl.
      rewrite normalize_NFKD_ascii by exact Hascii.
      rewrite forallb_filter_id by exact Hascii.
      rewrite str_of_codepoints_codepoints.
      split; [ reflexivity | split; [ | congruence ] ].
      by apply bool_decide_eq_true_2.
    + exists (str_of_codepoints u).
      rewrite remove_accents_valid by reflexivity. simpl.
      rewrite normalize_NFKD_ascii by exact Hascii.
      rewrite forallb_filter_id by exact Hascii.
      split; [ reflexivity | split; [ | discriminate ] ].
      simpl. rewrite ascii_str_of_codepoints by exact Hascii.
      rewrite codepoints_str_of_codepoints by exact Hascii.
      by apply bool_decide_eq_true_2.
  - intros u. eexists. reflexivity.
Qed.

(** A [str] that holds a byte above 127 is refused by [unicode], whatever
    the normalizer. *)
Lemma remove_accents_str_byte_above_127 {U : Unicodedata} (s : string) :
  ascii_str s = false → remove_accents (PStr s) = Err UnicodeDecodeError.
Proof. intros Hs. simpl. unfold unicode. by rewrite Hs. Qed.

(** C7, where the code fails it: the [str] "café", UTF-8 bytes as Python 2
    holds them, is text, and the sanitizer raises [UnicodeDecodeError] on it,
    while on the [unicode] object of the same characters it returns
    "cafe". *)
Theorem remove_accents_str_cafe_raises :
  remove_accents (PStr "café") = Err UnicodeDecodeError
  ∧ remove_accents (PUnicode cafe) = Ok (PStr "cafe").
Proof.
  split; [ | reflexivity ].
  by apply remove_accents_str_byte_above_127.
Qed.





(** A [str] that holds UTF-8 bytes above 127 is refused by [unicode]. *)
Example remove_accents_utf8_str :
  remove_accents (PStr "café") = Err UnicodeDecodeError.
Proof. reflexivity. Qed.

(** A character without ASCII decomposition is dropped: u"3 €" gives "3 ". *)
Example remove_accents_drops_symbol :
  remove_accents (PUnicode [51; 32; 8364]%N) = Ok (PStr "3 ").
Proof. reflexivity. Qed.

(** An unsupported value inside a mapping makes the whole call raise. *)
Example remove_accents_dict_of_int :
  remove_accents (PDict [(KStr "title", PUnicode cafe); (KStr "track", PInt 3)])
  = Err TypeError.
Proof. reflexivity. Qed.


(** ** The LED *)

Lemma __init___self pi0 pin q m gpio0 :
  (__init__ pi0 pin q m gpio0).1
  = {| pi := pi0; led_pin := pin; display_q := q; menu := m; modemenu := None |}.
Proof. unfold __init__. by destruct (_ && _). Qed.

(** The constructor configures the pin exactly when both its guards hold. *)
Lemma __init___configures pi0 pin q m gpio0 :
  (__init__ pi0 pin q m gpio0).2 = gpio0 ++ [set_mode_OUTPUT pin] ↔
  is_Some pi0 ∧ py_truthy pin = true.
Proof.
  unfold __init__.
  destruct (bool_decide (is_Some pi0)) eqn:Hpi; simpl.
  - apply bool_decide_eq_true in Hpi.
    destruct (py_truthy pin); simpl; [ tauto | ].
    split; [ | intros [_ ?]; discriminate ].
    intros Heq. apply (f_equal length) in Heq.
    rewrite length_app in Heq. simpl in Heq. lia.
  - apply bool_decide_eq_false in Hpi.
    split; [ | tauto ].
    intros Heq. apply (f_equal length) in Heq.
    rewrite length_app in Heq. simpl in Heq. lia.
Qed.

Lemma toggle_led_falsy self state gpio :
  py_truthy (led_pin self) = false → toggle_led self state gpio = Ok gpio.
Proof. unfold toggle_led. by intros ->. Qed.

Lemma toggle_led_seq_falsy self states gpio :
  py_truthy (led_pin self) = false → toggle_led_seq self states gpio = Ok gpio.
Proof.
  intros Hpin. induction states as [ | state states IH ]; simpl; [ reflexivity | ].
  by rewrite toggle_led_falsy.
Qed.

(** C9: when the constructor has configured the LED pin as an output,
    [toggle_led(True)] then [toggle_led(False)] add exactly two writes to that
    pin, 1 then 0; when no pin was given, no sequence of [toggle_led] calls
    writes anything, and none raises. *)
Theorem toggle_led_writes (pi0 : option nat) (pin : pyval) (q : option nat)
    (m : pyval) (gpio0 : list gpio_call) :
  let self := (__init__ pi0 pin q m gpio0).1 in
  let gpio := (__init__ pi0 pin q m gpio0).2 in
  (gpio = gpio0 ++ [set_mode_OUTPUT pin] →
   ∃ gpio1,
     toggle_led self true gpio = Ok gpio1 ∧
     toggle_led self false gpio1 = Ok (gpio ++ [write pin 1; write pin 0]) ∧
     writes (gpio ++ [write pin 1; write pin 0])
     = writes gpio ++ [(pin, 1%Z); (pin, 0%Z)]) ∧
  (pin = PNone →
   ∀ states, toggle_led_seq self states gpio = Ok gpio).
Proof.
  intros self gpio. subst self. rewrite __init___self. split.
  - intros Hconf. apply __init___configures in Hconf as [[handle ->] Hpin].
    exists (gpio ++ [write pin 1]).
    unfold toggle_led. simpl. rewrite Hpin. simpl.
    split; [ reflexivity | ]. split.
    + by rewrite <- app_assoc.
    + unfold writes. by rewrite flat_map_app.
  - intros -> states. by apply toggle_led_seq_falsy.
Qed.

Lemma toggle_led_writes_witness :
  ∃ gpio1,
    toggle_led (__init__ (Some 0) (PInt 17) None PNone []).1 true
      [set_mode_OUTPUT (PInt 17)] = Ok gpio1 ∧
    toggle_led (__init__ (Some 0) (PInt 17) None PNone []).1 false gpio1
    = Ok [set_mode_OUTPUT (PInt 17); write (PInt 17) 1; write (PInt 17) 0] ∧
    writes [set_mode_OUTPUT (PInt 17); write (PInt 17) 1; write (PInt 17) 0]
    = [(PInt 17, 1%Z); (PInt 17, 0%Z)].
Proof.
  exact (proj1 (toggle_led_writes (Some 0) (PInt 17) None PNone []) eq_refl).
Defined.

(** C10: with [led_pin] 0 the constructor issues no call on the GPIO and
    [toggle_led] writes nothing, whatever the state: the instance behaves
    as the one constructed without a pin. *)
Theorem led_pin_zero_is_no_pin (pi0 : option nat) (q : option nat) (m : pyval)
    (gpio0 : list gpio_call) (state : bool) :
  (__init__ pi0 (PInt 0) q m gpio0).2 = gpio0 ∧
  toggle_led (__init__ pi0 (PInt 0) q m gpio0).1 state gpio0 = Ok gpio0 ∧
  (__init__ pi0 PNone q m gpio0).2 = (__init__ pi0 (PInt 0) q m gpio0).2 ∧
  toggle_led (__init__ pi0 PNone q m gpio0).1 state gpio0
  = toggle_led (__init__ pi0 (PInt 0) q m gpio0).1 state gpio0.
Proof.
  rewrite !__init___self. unfold __init__, toggle_led. simpl.
  rewrite !andb_false_r. done.
Qed.

(** A pin without a [pi] object: the constructor skips the configuration and
    [toggle_led] fails on [self.pi.write]. *)
Example toggle_led_without_pi :
  __init__ None (PInt 17) None PNone [] =
  ({| pi := None; led_pin := PInt 17; display_q := None; menu := PNone;
      modemenu := None |}, []) ∧
  toggle_led (__init__ None (PInt 17) None PNone []).1 true []
  = Err AttributeError.
Proof. split; reflexivity. Qed.


(** ** The store *)

Lemma lookup_new_old (st : store) (o : menu_obj) (x : addr) :
  x < length st → (st ++ [o]) !! x = st !! x.
Proof. intros Hx. by apply lookup_app_l. Qed.

Lemma lookup_new_new (st : store) (o : menu_obj) :
  (st ++ [o]) !! length st = Some o.
Proof. by rewrite lookup_app_r, Nat.sub_diag. Qed.

(** [add_item] on two distinct objects of the store. *)
Lemma add_item_ok (st : store) (p c : addr) (po co : menu_obj) :
  p ≠ c → st !! p = Some po → obj_class po ≠ RadioMenuItem →
  st !! c = Some co →
  ∃ st', add_item p c st = Ok st'
    ∧ length st' = length st
    ∧ st' !! p = Some (set_items po (obj_items po ++ [c]))
    ∧ st' !! c = Some (set_parent co (Some p))
    ∧ ∀ x, x ≠ p → x ≠ c → st' !! x = st !! x.
Proof.
  intros Hpc Hp Hcls Hc. unfold add_item. rewrite Hp.
  assert (Hlp : p < length st) by (by eapply lookup_lt_Some).
  assert (Hlc : c < length st) by (by eapply lookup_lt_Some).
  assert (Hc1 : <[p := set_items po (obj_items po ++ [c])]> st !! c = Some co)
    by (by rewrite list_lookup_insert_ne).
  eexists. split.
  { destruct (obj_class po); [ congruence | | ]; by rewrite Hc1. }
  rewrite !length_insert. split; [ reflexivity | ].
  split; [ | split ].
  - rewrite list_lookup_insert_ne by congruence.
    by rewrite list_lookup_insert_eq.
  - rewrite list_lookup_insert_eq; [ done | by rewrite length_insert ].
  - intros x Hxp Hxc. by rewrite !list_lookup_insert_ne by congruence.
Qed.

(** A new object added to a container of the store. *)
Lemma add_new_ok (st : store) (p : addr) (po o : menu_obj) :
  st !! p = Some po → obj_class po ≠ RadioMenuItem →
  ∃ st', add_item p (length st) (st ++ [o]) = Ok st'
    ∧ length st' = S (length st)
    ∧ st' !! p = Some (set_items po (obj_items po ++ [length st]))
    ∧ st' !! length st = Some (set_parent o (Some p))
    ∧ ∀ x, x < length st → x ≠ p → st' !! x = st !! x.
Proof.
  intros Hp Hcls.
  assert (Hlp : p < length st) by (by eapply lookup_lt_Some).
  destruct (add_item_ok (st ++ [o]) p (length st) po o)
    as (st' & Hadd & Hlen & Hp' & Hc' & Hframe).
  - lia.
  - by rewrite lookup_new_old.
  - exact Hcls.
  - apply lookup_new_new.
  - exists st'. repeat split; try done.
    + rewrite Hlen, length_app. simpl. lia.
    + intros x Hx Hxp. rewrite Hframe by lia. by apply lookup_new_old.
Qed.

(** ** The representation of an entry *)

Lemma repr_frame (lo lo' : nat) (st st' : store) :
  lo' ≤ lo →
  (∀ x, lo ≤ x → x < length st → st' !! x = st !! x) →
  ∀ par a e, repr lo st par a e → repr lo' st' par a e.
Proof.
  intros Hlo Hframe. fix IH 4. intros par a e Hr.
  destruct Hr as [ par a text target Ha Htarget Hobj
                 | par a text sub kids back Ha Hback Hobj Hkids Hbobj ].
  - apply repr_item; [ lia | exact Htarget | ].
    rewrite Hframe; [ exact Hobj | exact Ha | by eapply lookup_lt_Some ].
  - apply repr_sub with (kids := kids) (back := back); [ lia | lia | | | ].
    + rewrite Hframe; [ exact Hobj | exact Ha | by eapply lookup_lt_Some ].
    + clear Hobj. revert kids sub Hkids. fix IHkids 3.
      intros kids sub Hkids. destruct Hkids as [ | k e ks es Hk Hks ].
      * constructor.
      * constructor; [ apply IH; exact Hk | apply IHkids; exact Hks ].
    + rewrite Hframe; [ exact Hbobj | exact Hback | by eapply lookup_lt_Some ].
Qed.

(** ** The loop on a well-formed specification *)

Lemma py_size_pos v : 1 ≤ py_size v.
Proof. destruct v; simpl; lia. Qed.

Lemma walk_entry_leaf walk text target parent st :
  is_list target = false →
  walk_entry walk (PTuple [text; target]) parent st
  = add_leaf text target parent st.
Proof. by destruct target. Qed.

Lemma set_items_id po : set_items po (obj_items po) = po.
Proof. by destruct po. Qed.

Lemma walk_loop_nil (p : addr) (st : store) (po : menu_obj) :
  st !! p = Some po →
  ∃ st' kids,
    walk_loop _walk_menu [] p st = Ok st'
    ∧ length st' = length st + entries_nodes []
    ∧ (∀ x, x < length st → x ≠ p → st' !! x = st !! x)
    ∧ st' !! p = Some (set_items po (obj_items po ++ kids))
    ∧ Forall2 (repr (length st) st' p) kids [].
Proof.
  intros Hp. exists st, []. rewrite app_nil_r, set_items_id.
  split; [ reflexivity | ]. split; [ unfold entries_nodes; simpl; lia | ].
  split; [ reflexivity | ]. split; [ exact Hp | constructor ].
Qed.

Lemma walk_loop_wf (n : nat) :
  ∀ (es : list pyval) (p : addr) (st : store) (po : menu_obj),
    entries_size es ≤ n →
    forallb (wf_entry wf_menu) es = true →
    st !! p = Some po → obj_class po ≠ RadioMenuItem →
    ∃ st' kids,
      walk_loop _walk_menu es p st = Ok st'
      ∧ length st' = length st + entries_nodes es
      ∧ (∀ x, x < length st → x ≠ p → st' !! x = st !! x)
      ∧ st' !! p = Some (set_items po (obj_items po ++ kids))
      ∧ Forall2 (repr (length st) st' p) kids es.
Proof.
  induction n as [ | n IHn ].
  { intros [ | e es ] p st po Hsize _ Hp _.
    - by apply walk_loop_nil.
    - unfold entries_size in Hsize. simpl in Hsize. pose proof (py_size_pos e). lia. }
  induction es as [ | e es IHes ]; intros p st po Hsize Hwf Hp Hcls.
  { by apply walk_loop_nil. }
  simpl in Hwf. apply andb_prop in Hwf as [Hwfe Hwfes].
  unfold entries_size in Hsize. simpl in Hsize. fold (entries_size es) in Hsize.
  assert (Hlp : p < length st) by (by eapply lookup_lt_Some).
  (* the entry is a pair *)
  destruct e as [ | | | | | | [ | text [ | target [ | ? ? ] ] ] | | ];
    try discriminate Hwfe.
  simpl in Hwfe. rename Hwfe into Hwft.
  (* one round of the loop *)
  assert (Hround : ∃ st1 a,
    walk_entry _walk_menu (PTuple [text; target]) p st = Ok st1
    ∧ length st1 = length st + nodes (PTuple [text; target])
    ∧ (∀ x, x < length st → x ≠ p → st1 !! x = st !! x)
    ∧ st1 !! p = Some (set_items po (obj_items po ++ [a]))
    ∧ repr (length st) st1 p a (PTuple [text; target])).
  { destruct (is_list target) eqn:Htarget.
    - (* a submenu *)
      destruct target as [ | | | | | sub | | | ]; try discriminate Htarget.
      simpl in Hwft.
      set (a := length st).
      set (st0 := st ++ [RadioSubmenu_new text]).
      assert (Ha0 : st0 !! a = Some (RadioSubmenu_new text)) by apply lookup_new_new.
      assert (Hlen0 : length st0 = S a)
        by (unfold st0; rewrite length_app; simpl; lia).
      destruct (IHn sub a st0 (RadioSubmenu_new text))
        as (st1 & kids & Hloop & Hlen1 & Hframe1 & Ha1 & Hkids); try done.
      { simpl in Hsize. unfold entries_size. lia. }
      destruct (add_new_ok st1 a _
                  (MenuObj RadioMenuItem (PStr "Back") (Back a) [] None) Ha1)
        as (st2 & Hback & Hlen2 & Ha2 & Hb2 & Hframe2); [ done | ].
      assert (Hp2 : st2 !! p = Some po).
      { rewrite Hframe2, Hframe1 by lia. unfold st0.
        by rewrite lookup_new_old. }
      destruct (add_item_ok st2 p a po _ ltac:(lia) Hp2 Hcls Ha2)
        as (st3 & Hadd & Hlen3 & Hp3 & Ha3 & Hframe3).
      exists st3, a. split; [ | split; [ | split; [ | split ] ] ].
      + simpl. fold st0. fold a.
        unfold mbind at 1, result_bind.
        change (_walk_menu (PList sub) a st0)
          with (walk_loop _walk_menu sub a st0 ≫= walk_finish a).
        rewrite Hloop. simpl. unfold walk_finish, isinstance_RadioSubmenu.
        rewrite Ha1. simpl. unfold add_back_item, new.
        rewrite Hback. simpl. exact Hadd.
      + rewrite Hlen3, Hlen2, Hlen1, Hlen0. simpl.
        fold (entries_nodes sub). lia.
      + intros x Hx Hxp. rewrite Hframe3, Hframe2, Hframe1 by lia.
        by apply lookup_new_old.
      + exact Hp3.
      + apply repr_sub with (kids := kids) (back := length st1).
        * lia.
        * lia.
        * exact Ha3.
        * eapply Forall2_impl; [ exact Hkids | ].
          intros k e Hk. eapply repr_frame; [ | | exact Hk ]; [ lia | ].
          intros x Hx1 Hx2. rewrite Hframe3, Hframe2 by lia. reflexivity.
        * rewrite Hframe3 by lia. exact Hb2.
    - (* an item *)
      destruct (add_new_ok st p po (RadioMenuItem_new text target) Hp Hcls)
        as (st1 & Hadd & Hlen1 & Hp1 & Ha1 & Hframe1).
      exists st1, (length st). split; [ | split; [ | split; [ | split ] ] ].
      + rewrite walk_entry_leaf by exact Htarget. exact Hadd.
      + rewrite Hlen1. destruct target; simpl; try lia. discriminate.
      + exact Hframe1.
      + exact Hp1.
      + apply repr_item; [ lia | exact Htarget | exact Ha1 ]. }
  destruct Hround as (st1 & a & Hentry & Hlen1 & Hframe1 & Hp1 & Hrepr).
  destruct (IHes p st1 (set_items po (obj_items po ++ [a])))
    as (st' & kids & Hloop & Hlen' & Hframe' & Hp' & Hkids); try done.
  { lia. }
  exists st', (a :: kids). split; [ | split; [ | split; [ | split ] ] ].
  - simpl. simpl in Hentry. rewrite Hentry. simpl. exact Hloop.
  - rewrite Hlen', Hlen1. unfold entries_nodes. simpl. lia.
  - intros x Hx Hxp. rewrite Hframe', Hframe1 by lia. reflexivity.
  - rewrite Hp'. simpl. by rewrite <- app_assoc.
  - constructor.
    + eapply repr_frame; [ | | exact Hrepr ]; [ lia | ].
      intros x Hx1 Hx2. apply Hframe'; lia.
    + eapply Forall2_impl; [ exact Hkids | ].
      intros k e Hk. eapply repr_frame; [ | | exact Hk ]; [ lia | done ].
Qed.

(** ** The builder on a well-formed specification *)

Lemma wf_menu_list menu : wf_menu menu = true → ∃ es, menu = PList es.
Proof. destruct menu; try discriminate. eauto. Qed.

Lemma _get_menu_items_wf (self : RadioBaseMode) (st : store) (es : list pyval) :
  menu self = PList es → wf_menu (menu self) = true →
  ∃ st' kids,
    _get_menu_items self st = Ok (length st, st')
    ∧ length st' = S (length st) + entries_nodes es
    ∧ (∀ x, x < length st → st' !! x = st !! x)
    ∧ st' !! length st
      = Some (MenuObj RadioMenuMode PNone (Target PNone) kids None)
    ∧ Forall2 (repr (S (length st)) st' (length st)) kids es.
Proof.
  intros Hmenu Hwf. rewrite Hmenu in Hwf. simpl in Hwf.
  unfold _get_menu_items, new. rewrite Hmenu.
  set (st0 := st ++ [RadioMenuMode_new]).
  assert (Hlen0 : length st0 = S (length st))
    by (unfold st0; rewrite length_app; simpl; lia).
  destruct (walk_loop_wf (entries_size es) es (length st) st0 RadioMenuMode_new)
    as (st' & kids & Hloop & Hlen & Hframe & Hroot & Hkids);
    [ lia | exact Hwf | apply lookup_new_new | done | ].
  rewrite Hlen0 in Hkids.
  destruct es as [ | e es ].
  - (* the empty list is false: the root is returned as it is *)
    simpl in Hloop. injection Hloop as <-. inversion Hkids; subst.
    exists st0, []. simpl. split; [ reflexivity | ].
    split; [ rewrite Hlen0; unfold entries_nodes; simpl; lia | ].
    split; [ intros x Hx; by apply lookup_new_old | ].
    split; [ apply lookup_new_new | constructor ].
  - exists st', kids. split.
    + change (py_truthy (PList (e :: es))) with true. cbv iota.
      change (_walk_menu (PList (e :: es)) (length st) st0)
        with (walk_loop _walk_menu (e :: es) (length st) st0
                ≫= walk_finish (length st)).
      rewrite Hloop. simpl. unfold walk_finish, isinstance_RadioSubmenu.
      rewrite Hroot. reflexivity.
    + split; [ lia | ].
      split; [ | split; [ exact Hroot | exact Hkids ] ].
      intros x Hx. rewrite Hframe by lia. by apply lookup_new_old.
Qed.

(** ** Reading the menu back *)

Lemma read_children_mono (f g : addr → option menu_tree) items ts :
  (∀ a t, a ∈ items → f a = Some t → g a = Some t) →
  read_children f items = Some ts → read_children g items = Some ts.
Proof.
  revert ts. induction items as [ | a items IH ]; intros ts Hfg; simpl.
  - done.
  - destruct (f a) as [ t | ] eqn:Hfa; [ | discriminate ]. simpl.
    destruct (read_children f items) as [ ts' | ] eqn:Hts; [ | discriminate ].
    simpl. intros [= <-].
    rewrite (Hfg a t) by (done || apply list_elem_of_here). simpl.
    rewrite (IH ts') by (done || (intros; apply Hfg; [ by apply list_elem_of_further | done ])).
    reflexivity.
Qed.

Lemma read_node_mono (fuel fuel' : nat) (st : store) (a : addr) (t : menu_tree) :
  fuel ≤ fuel' → read_node fuel st a = Some t → read_node fuel' st a = Some t.
Proof.
  revert fuel' a t. induction fuel as [ | fuel IH ]; intros fuel' a t Hle.
  - discriminate.
  - destruct fuel' as [ | fuel' ]; [ lia | ]. simpl.
    destruct (st !! a) as [ o | ]; [ | done ]. simpl.
    destruct (obj_class o); [ done | | ].
    + destruct (read_children (read_node fuel st) (obj_items o)) as [ ts | ] eqn:Hts;
        [ | discriminate ].
      simpl. intros [= <-].
      erewrite read_children_mono; [ reflexivity | | exact Hts ].
      intros c tc _. apply IH. lia.
    + destruct (read_children (read_node fuel st) (obj_items o)) as [ ts | ] eqn:Hts;
        [ | discriminate ].
      simpl. intros [= <-].
      erewrite read_children_mono; [ reflexivity | | exact Hts ].
      intros c tc _. apply IH. lia.
Qed.

Lemma heights_app ts1 ts2 : heights (ts1 ++ ts2) = heights ts1 `max` heights ts2.
Proof.
  unfold heights. induction ts1 as [ | t ts1 IH ]; simpl; [ reflexivity | ].
  rewrite IH. lia.
Qed.

Lemma read_children_app f items1 items2 ts1 ts2 :
  read_children f items1 = Some ts1 → read_children f items2 = Some ts2 →
  read_children f (items1 ++ items2) = Some (ts1 ++ ts2).
Proof.
  revert ts1. induction items1 as [ | a items1 IH ]; intros ts1; simpl.
  - by intros [= <-].
  - destruct (f a) as [ t | ]; [ | discriminate ]. simpl.
    destruct (read_children f items1) as [ ts | ]; [ | discriminate ]. simpl.
    intros [= <-] H2. by rewrite (IH ts eq_refl H2).
Qed.

(** The objects that represent entries read back as the menus the
    specification describes for these entries. *)
Lemma repr_read (lo : nat) (st : store) :
  ∀ par a e, repr lo st par a e →
    read_node (height (spec_node e)) st a = Some (spec_node e).
Proof.
  fix IH 4. intros par a e Hr.
  destruct Hr as [ par a text target Ha Htarget Hobj
                 | par a text sub kids back Ha Hback Hobj Hkids Hbobj ].
  - destruct target; try discriminate Htarget; simpl; by rewrite Hobj.
  - change (spec_node (PTuple [text; PList sub]))
      with (Submenu text (map spec_node sub ++ [BackItem (PStr "Back")])).
    change (height (Submenu text (map spec_node sub ++ [BackItem (PStr "Back")])))
      with (S (heights (map spec_node sub ++ [BackItem (PStr "Back")]))).
    simpl. rewrite Hobj. simpl.
    set (m := heights (map spec_node sub ++ [BackItem (PStr "Back")])).
    assert (Hm : heights (map spec_node sub) ≤ m ∧ 1 ≤ m).
    { unfold m. rewrite heights_app. simpl. lia. }
    destruct Hm as [Hm1 Hm2]. clearbody m.
    assert (Hread : read_children (read_node m st) kids = Some (map spec_node sub)).
    { clear Hobj. revert kids sub Hkids Hm1. fix IHkids 3.
      intros kids sub Hkids Hm1.
      destruct Hkids as [ | k e ks es Hk Hks ]; [ reflexivity | ].
      simpl in Hm1 |- *.
      rewrite (read_node_mono (height (spec_node e)) m st k (spec_node e));
        [ | eapply Nat.max_lub_l; exact Hm1 | exact (IH _ _ _ Hk) ].
      simpl. rewrite (IHkids ks es Hks); [ reflexivity | ].
      eapply Nat.max_lub_r; exact Hm1. }
    rewrite (read_children_app _ kids [back] (map spec_node sub)
               [BackItem (PStr "Back")] Hread); [ reflexivity | ].
    simpl. destruct m as [ | m ]; [ lia | ]. simpl. by rewrite Hbobj.
Qed.

Lemma height_nodes : ∀ e, height (spec_node e) ≤ nodes e.
Proof.
  fix IH 1. intros e.
  destruct e as [ | | | | | | l | | ]; try (clear IH; simpl; lia).
  destruct l as [ | text [ | target [ | ? ? ] ] ]; try (clear IH; simpl; lia).
  - destruct target as [ | | | | | sub | | | ]; try (clear IH; simpl; lia).
    simpl. fold (heights (map spec_node sub ++ [BackItem (PStr "Back")])).
    rewrite heights_app. simpl.
    assert (Hsub : heights (map spec_node sub) ≤ list_sum (map nodes sub)).
    { induction sub as [ | e sub IHsub ]; simpl; [ lia | ].
      pose proof (IH e) as He. lia. }
    clear IH. lia.
  - destruct target; clear IH; simpl; lia.
Qed.

Lemma repr_read_children (lo : nat) (st : store) (par : addr) (m : nat) :
  ∀ kids es, Forall2 (repr lo st par) kids es →
    heights (map spec_node es) ≤ m →
    read_children (read_node m st) kids = Some (map spec_node es).
Proof.
  induction 1 as [ | k e ks es Hk Hks IH ]; intros Hm; [ reflexivity | ].
  simpl in Hm |- *. fold (heights (map spec_node es)) in Hm.
  rewrite (read_node_mono (height (spec_node e)) m st k (spec_node e));
    [ | lia | by eapply repr_read ].
  simpl. rewrite IH by lia. reflexivity.
Qed.

Lemma heights_entries es : heights (map spec_node es) ≤ entries_nodes es.
Proof.
  unfold entries_nodes. induction es as [ | e es IH ]; simpl; [ lia | ].
  fold (heights (map spec_node es)). pose proof (height_nodes e). lia.
Qed.

Lemma read_root (lo : nat) (st : store) (root : addr) kids es :
  st !! root = Some (MenuObj RadioMenuMode PNone (Target PNone) kids None) →
  Forall2 (repr lo st root) kids es →
  S (entries_nodes es) ≤ length st →
  read_menu st root = Some (Root (map spec_node es)).
Proof.
  intros Hroot Hkids Hlen. unfold read_menu.
  apply (read_node_mono (S (entries_nodes es))); [ exact Hlen | ].
  simpl. rewrite Hroot. simpl.
  erewrite repr_read_children; [ reflexivity | exact Hkids | apply heights_entries ].
Qed.

(** ** Submenus and their "Back" item *)

Lemma repr_not_back lo st par a e : repr lo st par a e → is_back st a = false.
Proof. unfold is_back. destruct 1 as [ ? ? ? ? ? ? -> | ? ? ? ? ? ? ? ? -> ]; reflexivity. Qed.

Lemma repr_kids_not_back lo st par kids es :
  Forall2 (repr lo st par) kids es → Forall (λ c, is_back st c = false) kids.
Proof.
  induction 1 as [ | k e ks es Hk Hks IH ]; constructor;
    [ by eapply repr_not_back | exact IH ].
Qed.

Lemma repr_entry_at (lo : nat) (st : store) :
  ∀ path es kids extra p po text sub,
    st !! p = Some po → obj_items po = kids ++ extra →
    Forall2 (repr lo st p) kids es →
    entry_at es path = Some (PTuple [text; PList sub]) →
    ∃ s kids' back q qo,
      node_at st p path = Some s
      ∧ node_at st p (removelast path) = Some q
      ∧ st !! q = Some qo ∧ s ∈ obj_items qo
      ∧ st !! s = Some (MenuObj RadioSubmenu text (Target PNone)
                          (kids' ++ [back]) (Some q))
      ∧ Forall2 (repr lo st s) kids' sub
      ∧ st !! back = Some (MenuObj RadioMenuItem (PStr "Back") (Back s) []
                             (Some s)).
Proof.
  induction path as [ | i path IH ]; intros es kids extra p po text sub Hp Hitems Hkids Hat.
  { discriminate. }
  simpl in Hat. destruct (es !! i) as [ e | ] eqn:He; [ | discriminate ].
  simpl in Hat.
  destruct (Forall2_lookup_r _ _ _ _ _ Hkids He) as (k & Hk & Hrepr).
  assert (Hchild : obj_items po !! i = Some k).
  { rewrite Hitems. by apply lookup_app_l_Some. }
  destruct path as [ | j path ].
  - (* the entry is a child of [p] *)
    injection Hat as ->.
    inversion Hrepr as [ | ? ? ? ? kids' back Hlo Hlob Hobj Hkids' Hback ]; subst.
    { discriminate. }
    exists k, kids', back, p, po. simpl. rewrite Hp. simpl. rewrite Hchild. simpl.
    repeat split; try done. by eapply list_elem_of_lookup_2.
  - (* the entry is further down, below a child of [p] *)
    destruct e as [ | | | | | | l | | ]; try discriminate Hat.
    destruct l as [ | text0 l ]; [ discriminate Hat | ].
    destruct l as [ | target0 l ]; [ discriminate Hat | ].
    destruct target0 as [ | | | | | sub0 | | | ]; try discriminate Hat.
    destruct l as [ | ? ? ]; [ | discriminate Hat ].
    inversion Hrepr as [ | ? ? ? ? kids0 back0 Hlo Hlob Hobj Hkids0 Hback0 ]; subst.
    { discriminate. }
    destruct (IH sub0 kids0 [back0] k _ text sub Hobj eq_refl Hkids0 Hat)
      as (s & kids' & back & q & qo & Hs & Hq & Hqo & Hin & Hso & Hkids' & Hback).
    exists s, kids', back, q, qo.
    split; [ | split; [ | done ] ].
    + change (node_at st p (i :: j :: path))
        with (st !! p ≫= λ o, obj_items o !! i ≫= λ c, node_at st c (j :: path)).
      rewrite Hp. simpl. rewrite Hchild. exact Hs.
    + change (removelast (i :: j :: path)) with (i :: removelast (j :: path)).
      change (node_at st p (i :: removelast (j :: path)))
        with (st !! p ≫= λ o, obj_items o !! i
                ≫= λ c, node_at st c (removelast (j :: path))).
      rewrite Hp. simpl. rewrite Hchild. exact Hq.
Qed.

(** C1: on a well-formed specification, the Root gets one child per entry
    and no "Back" item; every submenu made from a pair (label, sublist) gets
    one child per entry of the sublist, none of them a "Back" item, and then
    exactly one "Back" item as its last child, whose selection leads to the
    parent of the submenu, the object that has the submenu among its
    children; from an empty sublist the "Back" item is the only child. *)
Theorem walk_menu_back_item (self : RadioBaseMode) (st : store)
    (es : list pyval) (Hmenu : menu self = PList es)
    (Hwf : wf_menu (menu self) = true) :
  ∃ root st' ro,
    _get_menu_items self st = Ok (root, st')
    ∧ st' !! root = Some ro
    ∧ obj_class ro = RadioMenuMode ∧ obj_parent ro = None
    ∧ length (obj_items ro) = length es
    ∧ Forall (λ c, is_back st' c = false) (obj_items ro)
    ∧ ∀ path text sub,
        entry_at es path = Some (PTuple [text; PList sub]) →
        ∃ s so kids back p po,
          node_at st' root path = Some s ∧ st' !! s = Some so
          ∧ obj_class so = RadioSubmenu ∧ obj_text so = text
          ∧ obj_items so = kids ++ [back]
          ∧ length kids = length sub
          ∧ Forall (λ c, is_back st' c = false) kids
          ∧ st' !! back = Some (MenuObj RadioMenuItem (PStr "Back") (Back s) []
                                  (Some s))
          ∧ node_at st' root (removelast path) = Some p
          ∧ obj_parent so = Some p
          ∧ st' !! p = Some po ∧ s ∈ obj_items po
          ∧ invoke st' back = Some p
          ∧ (sub = [] → obj_items so = [back]).
Proof.
  destruct (_get_menu_items_wf self st es Hmenu Hwf)
    as (st' & kids & Hget & Hlen & Hframe & Hroot & Hkids).
  exists (length st), st', (MenuObj RadioMenuMode PNone (Target PNone) kids None).
  split; [ exact Hget | ]. split; [ exact Hroot | ].
  split; [ reflexivity | ]. split; [ reflexivity | ].
  split; [ by eapply Forall2_length | ].
  split; [ by eapply repr_kids_not_back | ].
  intros path text sub Hat.
  destruct (repr_entry_at _ st' path es kids [] (length st) _ text sub Hroot
              (eq_sym (app_nil_r _)) Hkids Hat)
    as (s & kids' & back & q & qo & Hs & Hq & Hqo & Hin & Hso & Hkids' & Hback).
  exists s, (MenuObj RadioSubmenu text (Target PNone) (kids' ++ [back]) (Some q)),
    kids', back, q, qo.
  repeat split; try done.
  - by eapply Forall2_length.
  - by eapply repr_kids_not_back.
  - unfold invoke. rewrite Hback. simpl. rewrite Hso. reflexivity.
  - intros ->. by inversion Hkids'.
Qed.

Lemma walk_menu_back_item_witness :
  ∃ root st' back,
    _get_menu_items
      {| pi := None; led_pin := PNone; display_q := None;
         menu := play_settings_menu; modemenu := None |} []
    = Ok (root, st')
    ∧ node_at st' root [1; 1] = Some back
    ∧ is_back st' back = true
    ∧ invoke st' back = Some root.
Proof.
  destruct (walk_menu_back_item
              {| pi := None; led_pin := PNone; display_q := None;
                 menu := play_settings_menu; modemenu := None |} [] _
              eq_refl eq_refl)
    as (root & st' & ro & Hget & _).
  exists root, st', 4. vm_compute in Hget. injection Hget as <- <-.
  vm_compute. done.
Defined.

(** C2: on a well-formed specification the menu read back from the store
    is the one the specification describes: at every level the children
    stand for the entries in the order of the entries, and the "Back" item of
    a submenu comes after them.  The specification with "Play" and
    "Settings" gives Root → [Item "Play", Submenu "Settings" →
    [Item "Volume", Item "Back"]]. *)
Theorem walk_menu_preserves_order :
  (∀ (self : RadioBaseMode) (st : store),
     wf_menu (menu self) = true →
     ∃ root st',
       _get_menu_items self st = Ok (root, st')
       ∧ read_menu st' root = Some (spec_root (menu self))) ∧
  (∀ (self : RadioBaseMode),
     menu self = play_settings_menu →
     ∃ root st',
       _get_menu_items self [] = Ok (root, st')
       ∧ read_menu st' root
         = Some (Root [ Item (PStr "Play") (PFunc "play_action");
                        Submenu (PStr "Settings")
                          [ Item (PStr "Volume") (PFunc "vol_action");
                            BackItem (PStr "Back") ] ])).
Proof.
  split.
  - intros self st Hwf. destruct (wf_menu_list _ Hwf) as [es Hmenu].
    destruct (_get_menu_items_wf self st es Hmenu Hwf)
      as (st' & kids & Hget & Hlen & Hframe & Hroot & Hkids).
    exists (length st), st'. split; [ exact Hget | ].
    rewrite Hmenu. simpl. eapply read_root; [ exact Hroot | exact Hkids | lia ].
  - intros self Hmenu. unfold _get_menu_items. rewrite Hmenu.
    eexists _, _. split; reflexivity.
Qed.

Lemma walk_menu_preserves_order_witness :
  wf_menu play_settings_menu = true ∧
  ∃ root st',
    _get_menu_items
      {| pi := None; led_pin := PNone; display_q := None;
         menu := play_settings_menu; modemenu := None |} []
    = Ok (root, st')
    ∧ read_menu st' root = Some (spec_root play_settings_menu).
Proof.
  split; [ reflexivity | ].
  exact (proj1 walk_menu_preserves_order
           {| pi := None; led_pin := PNone; display_q := None;
              menu := play_settings_menu; modemenu := None |} [] eq_refl).
Defined.

(** C3: when the menu is the empty list, or [None], the result is a Root
    without children (so without "Back" item), and [build_menu] keeps it in
    [modemenu]. *)
Theorem get_menu_items_empty (self : RadioBaseMode) (st : store)
    (Hempty : menu self = PList [] ∨ menu self = PNone) :
  ∃ root st',
    _get_menu_items self st = Ok (root, st')
    ∧ st' !! root = Some (MenuObj RadioMenuMode PNone (Target PNone) [] None)
    ∧ read_menu st' root = Some (Root [])
    ∧ ∃ self', build_menu self st = Ok (self', st')
               ∧ modemenu self' = Some root.
Proof.
  exists (length st), (st ++ [RadioMenuMode_new]).
  assert (Hget : _get_menu_items self st
                 = Ok (length st, st ++ [RadioMenuMode_new])).
  { unfold _get_menu_items, new. by destruct Hempty as [-> | ->]. }
  split; [ exact Hget | ]. split; [ apply lookup_new_new | ]. split.
  - unfold read_menu. rewrite length_app. simpl length.
    rewrite Nat.add_1_r. simpl. rewrite lookup_new_new. reflexivity.
  - unfold build_menu. rewrite Hget. simpl. eauto.
Qed.

Lemma get_menu_items_empty_witness :
  ∃ root st',
    _get_menu_items
      {| pi := None; led_pin := PNone; display_q := None;
         menu := PList []; modemenu := None |} [] = Ok (root, st')
    ∧ st' !! root = Some (MenuObj RadioMenuMode PNone (Target PNone) [] None)
    ∧ read_menu st' root = Some (Root [])
    ∧ ∃ self', build_menu
                 {| pi := None; led_pin := PNone; display_q := None;
                    menu := PList []; modemenu := None |} [] = Ok (self', st')
               ∧ modemenu self' = Some root.
Proof.
  exact (get_menu_items_empty
           {| pi := None; led_pin := PNone; display_q := None;
              menu := PList []; modemenu := None |} [] (or_introl eq_refl)).
Defined.

(** ** The loop as the source writes it *)

(** One round of the loop is: unpack the entry, then branch on the type of
    the target. *)
Lemma walk_entry_source walk (e : pyval) (parent : addr) (st : store) :
  walk_entry walk e parent st
  = '(text, target) ← unpack_pair e;
    if is_list target then
      let '(sub, st1) := new (RadioSubmenu_new text) st in
      '(submenu, st2) ← walk target sub st1;
      add_item parent submenu st2
    else add_leaf text target parent st.
Proof.
  destruct e as [ | | | s | u | l | l | d | ]; try reflexivity.
  - destruct s as [ | c1 [ | c2 [ | c3 s ] ] ]; reflexivity.
  - destruct u as [ | c1 [ | c2 [ | c3 u ] ] ]; reflexivity.
  - destruct l as [ | text [ | target [ | ? ? ] ] ]; try reflexivity;
      destruct target; reflexivity.
  - destruct l as [ | text [ | target [ | ? ? ] ] ]; try reflexivity;
      destruct target; reflexivity.
  - destruct d as [ | [k1 v1] [ | [k2 v2] [ | ? ? ] ] ]; try reflexivity.
    destruct k2; reflexivity.
Qed.

(** On entries that are neither lists nor tuples the loop does not use the
    recursive call. *)
Lemma walk_loop_atoms walk1 walk2 (es : list pyval) (parent : addr) (st : store) :
  Forall atom es →
  walk_loop walk1 es parent st = walk_loop walk2 es parent st.
Proof.
  intros Hes. revert st. induction Hes as [ | e es He Hes IH ]; intros st.
  - reflexivity.
  - simpl. assert (Hentry : walk_entry walk1 e parent st
                            = walk_entry walk2 e parent st)
      by (by destruct e).
    rewrite Hentry. destruct (walk_entry walk2 e parent st); simpl; auto.
Qed.

Lemma py_iter_atoms (menu : pyval) (es : list pyval) :
  atom menu → py_iter menu = Ok es → Forall atom es.
Proof.
  destruct menu as [ | | | s | u | | | d | ]; try done; simpl; intros _ [= <-].
  - induction (list_ascii_of_string s); constructor; done.
  - induction u; constructor; done.
  - induction d as [ | [[] v] d IH ]; constructor; done.
Qed.

(** [_walk_menu] is: iterate over the menu, run the loop with [_walk_menu]
    itself as the recursive call, then finish. *)
Lemma _walk_menu_source (menu : pyval) (parent : addr) (st : store) :
  _walk_menu menu parent st
  = es ← py_iter menu;
    st' ← walk_loop _walk_menu es parent st;
    walk_finish parent st'.
Proof.
  destruct menu as [ | | | s | u | l | l | d | ]; try reflexivity.
  - simpl. erewrite walk_loop_atoms; [ reflexivity | ].
    by eapply (py_iter_atoms (PStr s)).
  - simpl. erewrite walk_loop_atoms; [ reflexivity | ].
    by eapply (py_iter_atoms (PUnicode u)).
  - simpl. erewrite walk_loop_atoms; [ reflexivity | ].
    by eapply (py_iter_atoms (PDict d)).
Qed.

(** ** The builder on an arbitrary value *)

Lemma py_iter_error (v : pyval) (e : pyerr) : py_iter v = Err e → e = TypeError.
Proof. destruct v; simpl; congruence. Qed.

Lemma unpack_pair_error (v : pyval) (e : pyerr) :
  unpack_pair v = Err e → e = TypeError ∨ e = ValueError.
Proof.
  unfold unpack_pair. destruct (py_iter v) as [ es | e' ] eqn:Hiter; simpl.
  - destruct es as [ | ? [ | ? [ | ? ? ] ] ]; intros [= <-]; auto.
  - intros [= <-]. left. by eapply py_iter_error.
Qed.

Lemma unpack_pair_list_size (v text : pyval) (sub : list pyval) :
  unpack_pair v = Ok (text, PList sub) → py_size (PList sub) < py_size v.
Proof.
  destruct v as [ | | | s | u | l | l | d | ]; try discriminate.
  - destruct s as [ | c1 [ | c2 [ | c3 s ] ] ]; discriminate.
  - destruct u as [ | c1 [ | c2 [ | c3 u ] ] ]; discriminate.
  - destruct l as [ | ? [ | ? [ | ? ? ] ] ]; try discriminate.
    intros [= -> ->]. simpl. lia.
  - destruct l as [ | ? [ | ? [ | ? ? ] ] ]; try discriminate.
    intros [= -> ->]. simpl. lia.
  - destruct d as [ | [k1 v1] [ | [k2 v2] [ | ? ? ] ] ]; try discriminate.
    destruct k2; discriminate.
Qed.

Lemma walk_outcome_leaf text target parent st po :
  st !! parent = Some po → obj_class po ≠ RadioMenuItem →
  walk_outcome parent st po (add_leaf text target parent st).
Proof.
  intros Hp Hcls. left.
  destruct (add_new_ok st parent po (RadioMenuItem_new text target) Hp Hcls)
    as (st1 & Hadd & Hlen1 & Hp1 & _ & Hframe1).
  exists st1. split; [ exact Hadd | ]. split; [ lia | ].
  split; [ exact Hframe1 | ]. eexists. split; [ exact Hp1 | reflexivity ].
Qed.

Lemma walk_outcome_entry walk (n : nat) (e : pyval) parent st po :
  walk_sound walk n → py_size e ≤ S n →
  st !! parent = Some po → obj_class po ≠ RadioMenuItem →
  walk_outcome parent st po (walk_entry walk e parent st).
Proof.
  intros Hwalk Hsize Hp Hcls. rewrite walk_entry_source.
  assert (Hlp : parent < length st) by (by eapply lookup_lt_Some).
  destruct (unpack_pair e) as [ [text target] | err ] eqn:Hunpack; simpl.
  2: { right. exists err. split; [ reflexivity | by eapply unpack_pair_error ]. }
  destruct (is_list target) eqn:Htarget; [ | by apply walk_outcome_leaf ].
  destruct target as [ | | | | | sub | | | ]; try discriminate Htarget.
  apply unpack_pair_list_size in Hunpack.
  set (a := length st). set (st0 := st ++ [RadioSubmenu_new text]).
  assert (Hlen0 : length st0 = S a)
    by (unfold st0; rewrite length_app; simpl; lia).
  destruct (Hwalk (PList sub) a st0 (RadioSubmenu_new text))
    as [Hout Hret]; [ lia | apply lookup_new_new | done | ].
  destruct (walk (PList sub) a st0) as [ [a' st1] | err ] eqn:Hsub; simpl in *.
  2: { right. destruct Hout as [ (? & [=] & _) | (? & [= <-] & Herr) ]. eauto. }
  rewrite (Hret a' st1 eq_refl).
  destruct Hout as [ (? & [= <-] & Hlen1 & Hframe1 & (ao & Ha1 & Hcls1)) | (? & [=] & _) ].
  assert (Hp1 : st1 !! parent = Some po).
  { rewrite Hframe1 by lia. unfold st0. by rewrite lookup_new_old. }
  destruct (add_item_ok st1 parent a po ao ltac:(lia) Hp1 Hcls Ha1)
    as (st2 & Hadd & Hlen2 & Hp2 & _ & Hframe2).
  left. exists st2. split; [ exact Hadd | ]. split; [ lia | ]. split.
  - intros x Hx Hxp. rewrite Hframe2, Hframe1 by lia. by apply lookup_new_old.
  - eexists. split; [ exact Hp2 | reflexivity ].
Qed.

Lemma walk_outcome_loop walk (n : nat) (es : list pyval) :
  walk_sound walk n → Forall (λ e, py_size e ≤ S n) es →
  ∀ parent st po,
    st !! parent = Some po → obj_class po ≠ RadioMenuItem →
    walk_outcome parent st po (walk_loop walk es parent st).
Proof.
  intros Hwalk Hes. induction Hes as [ | e es He Hes IH ]; intros parent st po Hp Hcls.
  { left. exists st. repeat split; try done. eauto. }
  simpl.
  destruct (walk_outcome_entry walk n e parent st po Hwalk He Hp Hcls)
    as [ (st1 & -> & Hlen1 & Hframe1 & (po1 & Hp1 & Hcls1)) | (err & -> & Herr) ];
    simpl; [ | right; eauto ].
  destruct (IH parent st1 po1 Hp1 ltac:(congruence))
    as [ (st2 & -> & Hlen2 & Hframe2 & (po2 & Hp2 & Hcls2)) | (err & -> & Herr) ];
    [ | right; eauto ].
  left. exists st2. split; [ reflexivity | ]. split; [ lia | ]. split.
  - intros x Hx Hxp. rewrite Hframe2, Hframe1 by lia. reflexivity.
  - exists po2. split; [ exact Hp2 | congruence ].
Qed.

Lemma walk_outcome_finish parent st0 st po po' :
  length st0 ≤ length st →
  (∀ x, x < length st0 → x ≠ parent → st !! x = st0 !! x) →
  st !! parent = Some po' → obj_class po' = obj_class po →
  obj_class po ≠ RadioMenuItem →
  walk_outcome parent st0 po ('(a, st') ← walk_finish parent st; Ok st')
  ∧ ∀ a st', walk_finish parent st = Ok (a, st') → a = parent.
Proof.
  intros Hlen Hframe Hp Hcls Hcont. unfold walk_finish, isinstance_RadioSubmenu.
  rewrite Hp.
  destruct (add_new_ok st parent po'
              (MenuObj RadioMenuItem (PStr "Back") (Back parent) [] None) Hp
              ltac:(congruence))
    as (st1 & Hadd & Hlen1 & Hp1 & _ & Hframe1).
  unfold add_back_item, new. rewrite Hadd. simpl.
  destruct (obj_class po') eqn:Hpo'; simpl.
  - congruence.
  - split; [ | by intros ? ? [= <- _] ].
    left. exists st1. split; [ reflexivity | ]. split; [ lia | ]. split.
    + intros x Hx Hxp. rewrite Hframe1 by lia. by apply Hframe.
    + eexists. split; [ exact Hp1 | simpl; congruence ].
  - split; [ | by intros ? ? [= <- _] ].
    left. exists st. split; [ reflexivity | ]. split; [ lia | ].
    split; [ exact Hframe | ]. exists po'. split; [ exact Hp | congruence ].
Qed.

Lemma py_iter_size (v : pyval) (es : list pyval) (n : nat) :
  py_iter v = Ok es → py_size v ≤ S n → Forall (λ e, py_size e ≤ S n) es.
Proof.
  destruct v as [ | | | s | u | l | l | d | ]; try discriminate; simpl; intros [= <-] Hn.
  - apply Forall_forall. intros e [c [-> _]]%list_elem_of_fmap. simpl. lia.
  - apply Forall_forall. intros e [c [-> _]]%list_elem_of_fmap. simpl. lia.
  - apply Forall_forall. intros e He.
    assert (py_size e ≤ list_sum (map py_size l)); [ | lia ].
    clear Hn. induction He; simpl; lia.
  - apply Forall_forall. intros e He.
    assert (py_size e ≤ list_sum (map py_size l)); [ | lia ].
    clear Hn. induction He; simpl; lia.
  - apply Forall_forall. intros e [[[] ?] [-> _]]%list_elem_of_fmap; simpl; lia.
Qed.

Lemma _walk_menu_sound (n : nat) : walk_sound _walk_menu n.
Proof.
  induction n as [ | n IHn ]; intros menu parent st po Hsize Hp Hcls.
  { pose proof (py_size_pos menu). lia. }
  rewrite _walk_menu_source.
  destruct (py_iter menu) as [ es | err ] eqn:Hiter; simpl.
  2: { split; [ | discriminate ]. right. exists err.
       split; [ reflexivity | left; by eapply py_iter_error ]. }
  assert (Hes : Forall (λ e, py_size e ≤ S n) es) by (by eapply py_iter_size).
  destruct (walk_outcome_loop _walk_menu n es IHn Hes parent st po Hp Hcls)
    as [ (st1 & -> & Hlen1 & Hframe1 & (po1 & Hp1 & Hcls1)) | (err & -> & Herr) ];
    simpl.
  - by eapply walk_outcome_finish.
  - split; [ right; eauto | discriminate ].
Qed.

(** The exceptions of a construction, and what is left of it. *)
Lemma _get_menu_items_error (self : RadioBaseMode) (st : store) (e : pyerr) :
  _get_menu_items self st = Err e → e = TypeError ∨ e = ValueError.
Proof.
  unfold _get_menu_items, new.
  destruct (py_truthy (menu self)); [ | discriminate ].
  destruct (_walk_menu_sound (py_size (menu self)) (menu self) (length st)
              (st ++ [RadioMenuMode_new]) RadioMenuMode_new)
    as [Hout _]; [ lia | apply lookup_new_new | done | ].
  intros Herr. rewrite Herr in Hout. simpl in Hout.
  destruct Hout as [ (? & [=] & _) | (? & [= <-] & Hcases) ]. exact Hcases.
Qed.

(** C4, as the code has it: a target that is not a list is an action
    whatever its value, and its entry becomes an Item; a construction that
    raises does so with [TypeError] or [ValueError], the exceptions of
    iteration and unpacking, and [build_menu] then raises too and assigns
    nothing. *)
Theorem walk_menu_target_not_checked (self : RadioBaseMode) (st : store) :
  (∀ text target,
     menu self = PList [PTuple [text; target]] → is_list target = false →
     ∃ root st',
       _get_menu_items self st = Ok (root, st')
       ∧ read_menu st' root = Some (Root [Item text target])) ∧
  (∀ e, _get_menu_items self st = Err e →
        (e = TypeError ∨ e = ValueError) ∧ build_menu self st = Err e).
Proof.
  split.
  - intros text target Hmenu Htarget.
    assert (Hwf : wf_menu (menu self) = true)
      by (rewrite Hmenu; simpl; by rewrite Htarget).
    destruct (_get_menu_items_wf self st _ Hmenu Hwf)
      as (st' & kids & Hget & Hlen & Hframe & Hroot & Hkids).
    exists (length st), st'. split; [ exact Hget | ].
    erewrite read_root; [ | exact Hroot | exact Hkids | lia ].
    simpl. by destruct target.
  - intros e Herr. split; [ by eapply _get_menu_items_error | ].
    unfold build_menu. by rewrite Herr.
Qed.

Lemma walk_menu_target_not_checked_witness :
  ∃ root st',
    _get_menu_items
      {| pi := None; led_pin := PNone; display_q := None;
         menu := PList [PTuple [PStr "Volume"; PInt 11]]; modemenu := None |} []
    = Ok (root, st')
    ∧ read_menu st' root = Some (Root [Item (PStr "Volume") (PInt 11)]).
Proof.
  exact (proj1 (walk_menu_target_not_checked
                  {| pi := None; led_pin := PNone; display_q := None;
                     menu := PList [PTuple [PStr "Volume"; PInt 11]];
                     modemenu := None |} [])
           (PStr "Volume") (PInt 11) eq_refl eq_refl).
Defined.

(** C4 as stated fails: an integer target is not rejected, and a nested
    list that is not a list of pairs raises [TypeError]. *)
Lemma walk_menu_int_target_accepted :
  (∃ root st',
     _get_menu_items
       {| pi := None; led_pin := PNone; display_q := None;
          menu := PList [PTuple [PStr "A"; PInt 5]]; modemenu := None |} []
     = Ok (root, st')
     ∧ read_menu st' root = Some (Root [Item (PStr "A") (PInt 5)])) ∧
  _get_menu_items
    {| pi := None; led_pin := PNone; display_q := None;
       menu := PList [PTuple [PStr "A"; PList [PInt 5]]]; modemenu := None |} []
  = Err TypeError ∧
  _get_menu_items
    {| pi := None; led_pin := PNone; display_q := None;
       menu := PList [PTuple [PStr "A"; PList [PInt 5]]]; modemenu := None |} []
  ≠ Err MalformedMenuSpec.
Proof.
  split; [ | split ].
  - eexists _, _. split; reflexivity.
  - reflexivity.
  - discriminate.
Qed.

(** A menu that is a string: its first character cannot be unpacked. *)
Example _get_menu_items_str_menu :
  _get_menu_items
    {| pi := None; led_pin := PNone; display_q := None;
       menu := PStr "ab"; modemenu := None |} [] = Err ValueError.
Proof. reflexivity. Qed.

(** A tuple target is not a list: it is the action of an Item. *)
Example _get_menu_items_tuple_target :
  ∃ root st',
    _get_menu_items
      {| pi := None; led_pin := PNone; display_q := None;
         menu := PList [PTuple [PStr "Station";
                                PTuple [PTuple [PStr "FM"; PInt 1]]]];
         modemenu := None |} [] = Ok (root, st')
    ∧ read_menu st' root
      = Some (Root [Item (PStr "Station") (PTuple [PTuple [PStr "FM"; PInt 1]])]).
Proof. eexists _, _. split; reflexivity. Qed.

(** An empty sublist gives a submenu holding the "Back" item alone. *)
Example _get_menu_items_empty_submenu :
  ∃ root st',
    _get_menu_items
      {| pi := None; led_pin := PNone; display_q := None;
         menu := PList [PTuple [PStr "More"; PList []]];
         modemenu := None |} [] = Ok (root, st')
    ∧ read_menu st' root
      = Some (Root [Submenu (PStr "More") [BackItem (PStr "Back")]])
    ∧ invoke st' 2 = Some root.
Proof. eexists _, _. repeat split; reflexivity. Qed.


(** * More of the class *)

(** ** What the sanitizer returns *)

Section SanitizerResults.
Context {U : Unicodedata}.

Lemma sanitize_ascii_value data :
  valid_input data = true → ascii_value (sanitize data) = true.
Proof.
  induction data as [ | | | s | u | | | d IH | ] using pyval_nested_ind;
    simpl; try discriminate.
  - intros _. apply ascii_str_of_codepoints, forallb_filter.
  - intros _. apply ascii_str_of_codepoints, forallb_filter.
  - induction d as [ | [k v] d IHd ]; simpl; [ reflexivity | ].
    intros [Hv Hd]%andb_prop.
    inversion IH as [ | ? ? IHv IHd' ]; subst. simpl in IHv.
    rewrite (IHv Hv). simpl. auto.
Qed.

Lemma remove_accents_Ok_valid data out :
  remove_accents data = Ok out → valid_input data = true.
Proof.
  intros Hok. destruct (valid_input data) eqn:Hvalid; [ reflexivity | ].
  destruct (remove_accents_invalid data Hvalid) as (e & He & _). congruence.
Qed.
End SanitizerResults.

(** X1: the sanitizer returns exactly on the valid inputs: text that is a
    [unicode] object or a [str] of 7-bit bytes, and mappings whose values are
    valid; on every other value it raises. *)
Theorem remove_accents_domain {U : Unicodedata} (data : pyval) :
  (∃ out, remove_accents data = Ok out) ↔ valid_input data = true.
Proof.
  split.
  - intros [out Hok]. by eapply remove_accents_Ok_valid.
  - intros Hvalid. exists (sanitize data). by apply remove_accents_valid.
Qed.



(** ** The display queue *)

(** X3: [show_text] returns normally in exactly two cases: without a queue,
    and then nothing happens, whatever the text; with a queue and a valid
    text, and then the queue has one more item at its end, the key as given
    with the sanitized text.  With a queue, a text that is not valid makes
    it raise. *)
Theorem show_text_outcome {U : Unicodedata} (self : RadioBaseMode)
    (key text : pyval) (queue queue' : list (pyval * pyval)) :
  show_text self key text queue = Ok queue' ↔
  (display_q self = None ∧ queue' = queue)
  ∨ (is_Some (display_q self) ∧ valid_input text = true
     ∧ queue' = queue ++ [(key, sanitize text)]).
Proof.
  unfold show_text. destruct (display_q self) as [ q | ].
  - split.
    + destruct (remove_accents text) as [ text' | err ] eqn:Htext;
        simpl; [ | discriminate ].
      intros [= <-]. right.
      pose proof (remove_accents_Ok_valid _ _ Htext) as Hvalid.
      rewrite (remove_accents_valid _ Hvalid) in Htext. injection Htext as <-.
      eauto.
    + intros [ [[=] _] | (_ & Hvalid & ->) ].
      by rewrite (remove_accents_valid _ Hvalid).
  - split.
    + intros [= <-]. by left.
    + intros [ [_ ->] | ([? [=]] & _) ]. reflexivity.
Qed.

Lemma show_text_seq_None {U : Unicodedata} self calls queue :
  display_q self = None → show_text_seq self calls queue = Ok queue.
Proof.
  intros Hq. induction calls as [ | [key text] calls IH ]; simpl; [ reflexivity | ].
  unfold show_text at 1. rewrite Hq. exact IH.
Qed.

(** X4: a sequence of [show_text] calls that returns has only added to the
    queue, behind what was there: with a queue, one item per call, in the
    order of the calls, each the key of the call with its sanitized text;
    without a queue, nothing.  Every text it has put on the queue holds
    7-bit characters only. *)
Theorem show_text_seq_queue {U : Unicodedata} (self : RadioBaseMode)
    (calls queue queue' : list (pyval * pyval))
    (Hok : show_text_seq self calls queue = Ok queue') :
  ∃ added,
    queue' = queue ++ added
    ∧ added = match display_q self with
              | Some _ => map (λ '(key, text), (key, sanitize text)) calls
              | None => []
              end
    ∧ Forall (λ item, ascii_value item.2 = true) added.
Proof.
  destruct (display_q self) as [ q | ] eqn:Hq.
  2: { rewrite show_text_seq_None in Hok by exact Hq. injection Hok as <-.
       exists []. by rewrite app_nil_r. }
  revert queue Hok. induction calls as [ | [key text] calls IH ]; intros queue Hok.
  - injection Hok as <-. exists []. by rewrite app_nil_r.
  - simpl in Hok.
    destruct (show_text self key text queue) as [ queue1 | err ] eqn:Hshow;
      [ | discriminate ].
    simpl in Hok.
    apply show_text_outcome in Hshow as [ [Hnone _] | (_ & Hvalid & ->) ];
      [ congruence | ].
    destruct (IH _ Hok) as (added & -> & -> & Hascii).
    eexists. split; [ by rewrite <- app_assoc | ]. split; [ reflexivity | ].
    constructor; [ by apply sanitize_ascii_value | exact Hascii ].
Qed.

Lemma show_text_seq_queue_witness :
  ∃ added,
    [(PStr "line1", PStr "old"); (PStr "line1", PStr "cafe");
     (PStr "line2", PStr "Deja vu")]
    = [(PStr "line1", PStr "old")] ++ added
    ∧ added = map (λ '(key, text), (key, sanitize text))
                [(PStr "line1", PUnicode cafe); (PStr "line2", PUnicode deja_vu)]
    ∧ Forall (λ item, ascii_value item.2 = true) added.
Proof.
  exact (show_text_seq_queue
           {| pi := None; led_pin := PNone; display_q := Some 0;
              menu := PNone; modemenu := None |}
           [(PStr "line1", PUnicode cafe); (PStr "line2", PUnicode deja_vu)]
           [(PStr "line1", PStr "old")]
           [(PStr "line1", PStr "old"); (PStr "line1", PStr "cafe");
            (PStr "line2", PStr "Deja vu")] eq_refl).
Defined.

(** X5: sanitizing a text before showing it changes nothing: with a queue,
    [show_text] on the result of [remove_accents] puts that result on the
    queue as it is, which is what [show_text] on the text itself puts
    there. *)
Theorem show_text_sanitized {U : Unicodedata} {UL : Unicodedata_laws U}
    (self : RadioBaseMode) (key text out : pyval)
    (queue : list (pyval * pyval))
    (Hqueue : is_Some (display_q self))
    (Hout : remove_accents text = Ok out) :
  show_text self key out queue = Ok (queue ++ [(key, out)])
  ∧ show_text self key text queue = Ok (queue ++ [(key, out)]).
Proof.
  pose proof (remove_accents_Ok_valid text out Hout) as Hvalid.
  assert (Hsan : out = sanitize text)
    by (rewrite (remove_accents_valid text Hvalid) in Hout; congruence).
  split.
  - apply show_text_outcome. right. split; [ exact Hqueue | ].
    subst out. split; [ by apply sanitize_valid | ].
    by rewrite sanitize_idempotent.
  - apply show_text_outcome. right. split; [ exact Hqueue | ].
    split; [ exact Hvalid | by rewrite Hsan ].
Qed.

Lemma show_text_sanitized_witness :
  show_text
    {| pi := None; led_pin := PNone; display_q := Some 0; menu := PNone;
       modemenu := None |} (PStr "title") (PStr "cafe") []
  = Ok ([] ++ [(PStr "title", PStr "cafe")])
  ∧ show_text
      {| pi := None; led_pin := PNone; display_q := Some 0; menu := PNone;
         modemenu := None |} (PStr "title") (PUnicode cafe) []
    = Ok ([] ++ [(PStr "title", PStr "cafe")]).
Proof.
  exact (show_text_sanitized
           {| pi := None; led_pin := PNone; display_q := Some 0; menu := PNone;
              modemenu := None |} (PStr "title") (PUnicode cafe) (PStr "cafe") []
           (ex_intro _ 0 eq_refl) eq_refl).
Defined.

(** ** Sequences of LED calls *)

(** X6: what a sequence of [toggle_led] calls does to the GPIO: with a pin
    that is true and a [pi] object, one write to that pin per call, in the
    order of the calls, at level 1 or 0 after the state, and no other call;
    with a pin that is true and no [pi] object, [AttributeError] at the
    first call; with a pin that is false, nothing. *)
Theorem toggle_led_seq_trace (self : RadioBaseMode) (states : list bool)
    (gpio : list gpio_call) :
  toggle_led_seq self states gpio =
  if py_truthy (led_pin self) then
    match pi self, states with
    | None, _ :: _ => Err AttributeError
    | _, _ => Ok (gpio ++ map (λ state, write (led_pin self) (Z.b2z state)) states)
    end
  else Ok gpio.
Proof.
  destruct (py_truthy (led_pin self)) eqn:Hpin;
    [ | by apply toggle_led_seq_falsy ].
  destruct (pi self) as [ handle | ] eqn:Hpi.
  - revert gpio. induction states as [ | state states IH ]; intros gpio; simpl.
    + by rewrite app_nil_r.
    + unfold toggle_led at 1. rewrite Hpin, Hpi. simpl.
      rewrite IH. by rewrite <- app_assoc.
  - destruct states as [ | state states ]; simpl.
    + by rewrite app_nil_r.
    + unfold toggle_led at 1. by rewrite Hpin, Hpi.
Qed.

(** ** A construction and the objects that were there before *)

Lemma read_node_frame (st st' : list menu_obj) :
  (∀ x, x < length st → st' !! x = st !! x) →
  ∀ fuel a t, read_node fuel st a = Some t → read_node fuel st' a = Some t.
Proof.
  intros Hframe. induction fuel as [ | fuel IH ]; intros a t; [ discriminate | ].
  simpl. destruct (st !! a) as [ o | ] eqn:Ha; [ | discriminate ].
  rewrite Hframe, Ha by (by eapply lookup_lt_Some). simpl.
  destruct (obj_class o); [ done | | ].
  - destruct (read_children (read_node fuel st) (obj_items o)) as [ ts | ] eqn:Hts;
      [ | discriminate ].
    simpl. intros [= <-].
    erewrite read_children_mono; [ reflexivity | | exact Hts ].
    intros c tc _. apply IH.
  - destruct (read_children (read_node fuel st) (obj_items o)) as [ ts | ] eqn:Hts;
      [ | discriminate ].
    simpl. intros [= <-].
    erewrite read_children_mono; [ reflexivity | | exact Hts ].
    intros c tc _. apply IH.
Qed.

Lemma read_menu_frame (st st' : list menu_obj) (a : nat) (t : menu_tree) :
  length st ≤ length st' →
  (∀ x, x < length st → st' !! x = st !! x) →
  read_menu st a = Some t → read_menu st' a = Some t.
Proof.
  unfold read_menu. intros Hlen Hframe Hread.
  apply (read_node_mono (length st)); [ exact Hlen | ].
  by apply (read_node_frame st).
Qed.

(** X7: whatever the menu, a construction that returns has made its root a
    new object, of class [RadioMenuMode], and has left every object that
    existed before as it was: the store has only grown, and every menu that
    could be read before reads the same afterwards. *)
Theorem _get_menu_items_isolation (self : RadioBaseMode)
    (st st' : list menu_obj) (root : nat)
    (Hok : _get_menu_items self st = Ok (root, st')) :
  root = length st
  ∧ length st < length st'
  ∧ (∀ x, x < length st → st' !! x = st !! x)
  ∧ (∃ ro, st' !! root = Some ro ∧ obj_class ro = RadioMenuMode)
  ∧ (∀ a t, read_menu st a = Some t → read_menu st' a = Some t).
Proof.
  assert (Hmain : root = length st ∧ length st < length st'
                  ∧ (∀ x, x < length st → st' !! x = st !! x)
                  ∧ (∃ ro, st' !! root = Some ro ∧ obj_class ro = RadioMenuMode)).
  { unfold _get_menu_items, new in Hok.
    destruct (py_truthy (menu self)).
    - destruct (_walk_menu_sound (py_size (menu self)) (menu self) (length st)
                  (st ++ [RadioMenuMode_new]) RadioMenuMode_new)
        as [Hout Hret]; [ lia | apply lookup_new_new | done | ].
      rewrite Hok in Hout. simpl in Hout.
      pose proof (Hret _ _ Hok) as ->.
      destruct Hout as [ (? & [= <-] & Hlen & Hframe & (ro & Hro & Hcls))
                       | (? & [=] & _) ].
      rewrite length_app in Hlen, Hframe. simpl in Hlen, Hframe.
      split; [ reflexivity | ]. split; [ lia | ]. split.
      + intros x Hx. rewrite Hframe by lia. by apply lookup_new_old.
      + exists ro. split; [ exact Hro | exact Hcls ].
    - injection Hok as <- <-. rewrite length_app. simpl.
      split; [ reflexivity | ]. split; [ lia | ]. split.
      + intros x Hx. by apply lookup_new_old.
      + exists RadioMenuMode_new. split; [ apply lookup_new_new | reflexivity ]. }
  destruct Hmain as (Hroot & Hlen & Hframe & Hro).
  repeat split; try done.
  intros a t. apply read_menu_frame; [ lia | exact Hframe ].
Qed.

Lemma _get_menu_items_isolation_witness :
  1 = length [RadioMenuMode_new]
  ∧ read_menu
      [RadioMenuMode_new;
       MenuObj RadioMenuMode PNone (Target PNone) [2] None;
       MenuObj RadioMenuItem (PStr "Play") (Target (PFunc "play_action")) []
         (Some 1)] 0 = Some (Root []).
Proof.
  destruct (_get_menu_items_isolation
              {| pi := None; led_pin := PNone; display_q := None;
                 menu := PList [PTuple [PStr "Play"; PFunc "play_action"]];
                 modemenu := None |}
              [RadioMenuMode_new] _ 1 eq_refl)
    as (Hroot & _ & _ & _ & Hread).
  split; [ exact Hroot | exact (Hread 0 (Root []) eq_refl) ].
Defined.

(** ** Building twice *)

Lemma _get_menu_items_read (self : RadioBaseMode) (st : list menu_obj) :
  wf_menu (menu self) = true →
  ∃ st',
    _get_menu_items self st = Ok (length st, st')
    ∧ length st < length st'
    ∧ (∀ x, x < length st → st' !! x = st !! x)
    ∧ read_menu st' (length st) = Some (spec_root (menu self)).
Proof.
  intros Hwf. destruct (wf_menu_list _ Hwf) as [es Hmenu].
  destruct (_get_menu_items_wf self st es Hmenu Hwf)
    as (st' & kids & Hget & Hlen & Hframe & Hroot & Hkids).
  exists st'. split; [ exact Hget | ]. split; [ lia | ].
  split; [ exact Hframe | ].
  rewrite Hmenu. simpl. eapply read_root; [ exact Hroot | exact Hkids | lia ].
Qed.

(** X9: [build_menu] called a second time on a well-formed specification
    builds the menu anew: [modemenu] then refers to another root, under
    which the same menu is read as under the first; the first menu is still
    in the store, unchanged; the other attributes of the instance are as they
    were. *)
Theorem build_menu_twice (self : RadioBaseMode) (st : list menu_obj)
    (Hwf : wf_menu (menu self) = true) :
  ∃ self1 st1 self2 st2 root1 root2,
    build_menu self st = Ok (self1, st1)
    ∧ build_menu self1 st1 = Ok (self2, st2)
    ∧ modemenu self1 = Some root1 ∧ modemenu self2 = Some root2
    ∧ root1 ≠ root2
    ∧ read_menu st1 root1 = Some (spec_root (menu self))
    ∧ read_menu st2 root2 = Some (spec_root (menu self))
    ∧ read_menu st2 root1 = Some (spec_root (menu self))
    ∧ (pi self2, led_pin self2, display_q self2, menu self2)
      = (pi self, led_pin self, display_q self, menu self).
Proof.
  destruct (_get_menu_items_read self st Hwf)
    as (st1 & Hget1 & Hlen1 & Hframe1 & Hread1).
  set (self1 := {| pi := pi self; led_pin := led_pin self;
                   display_q := display_q self; menu := menu self;
                   modemenu := Some (length st) |}).
  destruct (_get_menu_items_read self1 st1 Hwf)
    as (st2 & Hget2 & Hlen2 & Hframe2 & Hread2).
  exists self1, st1,
    {| pi := pi self; led_pin := led_pin self; display_q := display_q self;
       menu := menu self; modemenu := Some (length st1) |},
    st2, (length st), (length st1).
  split; [ unfold build_menu; by rewrite Hget1 | ].
  split; [ unfold build_menu; by rewrite Hget2 | ].
  split; [ reflexivity | ]. split; [ reflexivity | ]. split; [ lia | ].
  split; [ exact Hread1 | ]. split; [ exact Hread2 | ].
  split; [ | reflexivity ].
  eapply read_menu_frame; [ | exact Hframe2 | exact Hread1 ]. lia.
Qed.

Lemma build_menu_twice_witness :
  ∃ self1 st1 self2 st2 root1 root2,
    build_menu
      {| pi := None; led_pin := PNone; display_q := None;
         menu := play_settings_menu; modemenu := None |} [] = Ok (self1, st1)
    ∧ build_menu self1 st1 = Ok (self2, st2)
    ∧ modemenu self1 = Some root1 ∧ modemenu self2 = Some root2
    ∧ root1 ≠ root2
    ∧ read_menu st1 root1 = Some (spec_root play_settings_menu)
    ∧ read_menu st2 root2 = Some (spec_root play_settings_menu)
    ∧ read_menu st2 root1 = Some (spec_root play_settings_menu)
    ∧ (pi self2, led_pin self2, display_q self2, menu self2)
      = (None, PNone, None, play_settings_menu).
Proof.
  exact (build_menu_twice
           {| pi := None; led_pin := PNone; display_q := None;
              menu := play_settings_menu; modemenu := None |} [] eq_refl).
Defined.

(** ** The exception of a construction, told by the menu *)

Lemma entry_error_source check (e : pyval) :
  entry_error check e
  = match unpack_pair e with
    | Err err => Some err
    | Ok (_, target) => if is_list target then check target else None
    end.
Proof.
  destruct e as [ | | | s | u | l | l | d | ]; try reflexivity.
  - destruct s as [ | c1 [ | c2 [ | c3 s ] ] ]; reflexivity.
  - destruct u as [ | c1 [ | c2 [ | c3 u ] ] ]; reflexivity.
  - destruct l as [ | text [ | target [ | ? ? ] ] ]; try reflexivity;
      destruct target; reflexivity.
  - destruct l as [ | text [ | target [ | ? ? ] ] ]; try reflexivity;
      destruct target; reflexivity.
  - destruct d as [ | [k1 v1] [ | [k2 v2] [ | ? ? ] ] ]; try reflexivity.
    destruct k2; reflexivity.
Qed.

Lemma loop_error_atoms check1 check2 (es : list pyval) :
  Forall atom es → loop_error check1 es = loop_error check2 es.
Proof.
  induction 1 as [ | e es He Hes IH ]; simpl; [ reflexivity | ].
  assert (Hentry : entry_error check1 e = entry_error check2 e)
    by (by destruct e).
  rewrite Hentry, IH. reflexivity.
Qed.

Lemma walk_error_source (menu : pyval) :
  walk_error menu
  = match py_iter menu with
    | Err err => Some err
    | Ok es => loop_error walk_error es
    end.
Proof.
  destruct menu as [ | | | s | u | l | l | d | ]; try reflexivity.
  - simpl. apply loop_error_atoms. by eapply (py_iter_atoms (PStr s)).
  - simpl. apply loop_error_atoms. by eapply (py_iter_atoms (PUnicode u)).
  - simpl. apply loop_error_atoms. by eapply (py_iter_atoms (PDict d)).
Qed.

Lemma add_leaf_ok text target parent (st : list menu_obj) po :
  st !! parent = Some po → obj_class po ≠ RadioMenuItem →
  ∃ st', add_leaf text target parent st = Ok st'
    ∧ length st ≤ length st'
    ∧ (∀ x, x < length st → x ≠ parent → st' !! x = st !! x)
    ∧ ∃ po', st' !! parent = Some po' ∧ obj_class po' = obj_class po.
Proof.
  intros Hp Hcls.
  destruct (add_new_ok st parent po (RadioMenuItem_new text target) Hp Hcls)
    as (st1 & Hadd & Hlen1 & Hp1 & _ & Hframe1).
  exists st1. split; [ exact Hadd | ]. split; [ lia | ].
  split; [ exact Hframe1 | ]. eexists. split; [ exact Hp1 | reflexivity ].
Qed.

Lemma walk_finish_ok parent (st : list menu_obj) po :
  st !! parent = Some po → obj_class po ≠ RadioMenuItem →
  ∃ st', walk_finish parent st = Ok (parent, st')
    ∧ length st ≤ length st'
    ∧ (∀ x, x < length st → x ≠ parent → st' !! x = st !! x)
    ∧ ∃ po', st' !! parent = Some po' ∧ obj_class po' = obj_class po.
Proof.
  intros Hp Hcls. unfold walk_finish, isinstance_RadioSubmenu. rewrite Hp.
  destruct (add_new_ok st parent po
              (MenuObj RadioMenuItem (PStr "Back") (Back parent) [] None) Hp Hcls)
    as (st1 & Hadd & Hlen1 & Hp1 & _ & Hframe1).
  unfold add_back_item, new. rewrite Hadd. simpl.
  destruct (obj_class po) eqn:Hpo; simpl.
  - congruence.
  - exists st1. split; [ reflexivity | ]. split; [ lia | ].
    split; [ exact Hframe1 | ]. eexists. split; [ exact Hp1 | simpl; congruence ].
  - exists st. split; [ reflexivity | ]. split; [ lia | ].
    split; [ done | ]. exists po. split; [ exact Hp | congruence ].
Qed.

Lemma walk_exact_entry check walk (n : nat) (e : pyval) parent
    (st : list menu_obj) po :
  walk_exact check walk n → py_size e ≤ S n →
  st !! parent = Some po → obj_class po ≠ RadioMenuItem →
  match entry_error check e with
  | Some err => walk_entry walk e parent st = Err err
  | None =>
      ∃ st', walk_entry walk e parent st = Ok st'
        ∧ length st ≤ length st'
        ∧ (∀ x, x < length st → x ≠ parent → st' !! x = st !! x)
        ∧ ∃ po', st' !! parent = Some po' ∧ obj_class po' = obj_class po
  end.
Proof.
  intros Hwalk Hsize Hp Hcls. rewrite walk_entry_source, entry_error_source.
  assert (Hlp : parent < length st) by (by eapply lookup_lt_Some).
  destruct (unpack_pair e) as [ [text target] | err ] eqn:Hunpack; simpl;
    [ | reflexivity ].
  destruct (is_list target) eqn:Htarget; [ | by apply add_leaf_ok ].
  destruct target as [ | | | | | sub | | | ]; try discriminate Htarget.
  apply unpack_pair_list_size in Hunpack.
  set (a := length st). set (st0 := st ++ [RadioSubmenu_new text]).
  assert (Hlen0 : length st0 = S a)
    by (unfold st0; rewrite length_app; simpl; lia).
  pose proof (Hwalk (PList sub) a st0 (RadioSubmenu_new text)
                ltac:(lia) (lookup_new_new _ _) ltac:(done)) as Hsub.
  destruct (check (PList sub)) as [ err | ].
  { rewrite Hsub. reflexivity. }
  destruct Hsub as (st1 & Hsub & Hlen1 & Hframe1 & (ao & Ha1 & Hcls1)).
  rewrite Hsub. simpl.
  assert (Hp1 : st1 !! parent = Some po).
  { rewrite Hframe1 by lia. unfold st0. by rewrite lookup_new_old. }
  destruct (add_item_ok st1 parent a po ao ltac:(lia) Hp1 Hcls Ha1)
    as (st2 & Hadd & Hlen2 & Hp2 & _ & Hframe2).
  exists st2. split; [ exact Hadd | ]. split; [ lia | ]. split.
  - intros x Hx Hxp. rewrite Hframe2, Hframe1 by lia.
    unfold st0. by rewrite lookup_new_old.
  - eexists. split; [ exact Hp2 | reflexivity ].
Qed.

Lemma walk_exact_loop check walk (n : nat) (es : list pyval) :
  walk_exact check walk n → Forall (λ e, py_size e ≤ S n) es →
  ∀ parent (st : list menu_obj) po,
    st !! parent = Some po → obj_class po ≠ RadioMenuItem →
    match loop_error check es with
    | Some err => walk_loop walk es parent st = Err err
    | None =>
        ∃ st', walk_loop walk es parent st = Ok st'
          ∧ length st ≤ length st'
          ∧ (∀ x, x < length st → x ≠ parent → st' !! x = st !! x)
          ∧ ∃ po', st' !! parent = Some po' ∧ obj_class po' = obj_class po
    end.
Proof.
  intros Hwalk Hes. induction Hes as [ | e es He Hes IH ]; intros parent st po Hp Hcls.
  { simpl. exists st. repeat split; try done. eauto. }
  simpl.
  pose proof (walk_exact_entry check walk n e parent st po Hwalk He Hp Hcls)
    as Hentry.
  destruct (entry_error check e) as [ err | ].
  { rewrite Hentry. reflexivity. }
  destruct Hentry as (st1 & -> & Hlen1 & Hframe1 & (po1 & Hp1 & Hcls1)). simpl.
  pose proof (IH parent st1 po1 Hp1 ltac:(congruence)) as Hrest.
  destruct (loop_error check es) as [ err | ]; [ exact Hrest | ].
  destruct Hrest as (st2 & -> & Hlen2 & Hframe2 & (po2 & Hp2 & Hcls2)).
  exists st2. split; [ reflexivity | ]. split; [ lia | ]. split.
  - intros x Hx Hxp. rewrite Hframe2, Hframe1 by lia. reflexivity.
  - exists po2. split; [ exact Hp2 | congruence ].
Qed.

Lemma _walk_menu_exact (n : nat) : walk_exact walk_error _walk_menu n.
Proof.
  induction n as [ | n IHn ]; intros menu parent st po Hsize Hp Hcls.
  { pose proof (py_size_pos menu). lia. }
  rewrite _walk_menu_source, walk_error_source.
  destruct (py_iter menu) as [ es | err ] eqn:Hiter; simpl; [ | reflexivity ].
  assert (Hes : Forall (λ e, py_size e ≤ S n) es) by (by eapply py_iter_size).
  pose proof (walk_exact_loop walk_error _walk_menu n es IHn Hes parent st po
                Hp Hcls) as Hloop.
  destruct (loop_error walk_error es) as [ err | ].
  { rewrite Hloop. reflexivity. }
  destruct Hloop as (st1 & -> & Hlen1 & Hframe1 & (po1 & Hp1 & Hcls1)). simpl.
  destruct (walk_finish_ok parent st1 po1 Hp1 ltac:(congruence))
    as (st2 & Hfinish & Hlen2 & Hframe2 & (po2 & Hp2 & Hcls2)).
  exists st2. split; [ exact Hfinish | ]. split; [ lia | ]. split.
  - intros x Hx Hxp. rewrite Hframe2, Hframe1 by lia. reflexivity.
  - exists po2. split; [ exact Hp2 | congruence ].
Qed.

(** X10: whether a construction raises, and what, is told by the menu alone,
    whatever the store: it raises exactly when the menu is true and its walk
    meets a value that cannot be iterated ([TypeError]) or an entry that does
    not yield two values ([ValueError]), and the exception is that of the
    first such place in the order of the walk.  A well-formed specification
    has no such place. *)
Theorem _get_menu_items_error_exact (self : RadioBaseMode)
    (st : list menu_obj) :
  (∀ err, _get_menu_items self st = Err err ↔
          py_truthy (menu self) = true ∧ walk_error (menu self) = Some err)
  ∧ ((∃ root st', _get_menu_items self st = Ok (root, st')) ↔
     py_truthy (menu self) = false ∨ walk_error (menu self) = None)
  ∧ (wf_menu (menu self) = true → walk_error (menu self) = None).
Proof.
  assert (Hexact :
    match walk_error (menu self) with
    | Some err =>
        _walk_menu (menu self) (length st) (st ++ [RadioMenuMode_new]) = Err err
    | None =>
        ∃ st', _walk_menu (menu self) (length st) (st ++ [RadioMenuMode_new])
               = Ok (length st, st')
    end).
  { pose proof (_walk_menu_exact (py_size (menu self)) (menu self) (length st)
                  (st ++ [RadioMenuMode_new]) RadioMenuMode_new
                  ltac:(lia) (lookup_new_new _ _) ltac:(done)) as Hw.
    destruct (walk_error (menu self)); [ exact Hw | ].
    destruct Hw as (st' & Hw & _). eauto. }
  assert (Herr : ∀ err, _get_menu_items self st = Err err ↔
            py_truthy (menu self) = true ∧ walk_error (menu self) = Some err).
  { intros err. unfold _get_menu_items, new.
    destruct (py_truthy (menu self)).
    - destruct (walk_error (menu self)) as [ err' | ].
      + rewrite Hexact. split; [ intros [= <-]; done | intros [_ [= <-]]; done ].
      + destruct Hexact as [st' ->]. split; [ discriminate | intros [_ [=]] ].
    - split; [ discriminate | intros [[=] _] ]. }
  assert (Hok : (∃ root st', _get_menu_items self st = Ok (root, st')) ↔
            py_truthy (menu self) = false ∨ walk_error (menu self) = None).
  { split.
    - intros (root & st' & Hget).
      destruct (py_truthy (menu self)) eqn:Htruthy; [ | by left ].
      destruct (walk_error (menu self)) as [ err | ] eqn:Hwalk; [ | by right ].
      assert (_get_menu_items self st = Err err) by (by apply Herr).
      congruence.
    - intros Hcases. unfold _get_menu_items, new.
      destruct (py_truthy (menu self)); [ | eauto ].
      destruct Hcases as [ [=] | Hwalk ]. rewrite Hwalk in Hexact.
      destruct Hexact as [st' ->]. eauto. }
  split; [ exact Herr | ]. split; [ exact Hok | ].
  intros Hwf. destruct (_get_menu_items_read self st Hwf) as (st' & Hget & _).
  destruct (walk_error (menu self)) as [ err | ] eqn:Hwalk; [ | reflexivity ].
  destruct (py_truthy (menu self)) eqn:Htruthy.
  - assert (_get_menu_items self st = Err err) by (by apply Herr). congruence.
  - (* a well-formed specification that is false is the empty list *)
    destruct (wf_menu_list _ Hwf) as [es Hmenu]. rewrite Hmenu in Htruthy, Hwalk.
    destruct es; [ discriminate Hwalk | discriminate Htruthy ].
Qed.

Lemma _get_menu_items_error_exact_witness :
  walk_error (PList [PTuple [PStr "A"; PList [PInt 5]]]) = Some TypeError
  ∧ _get_menu_items
      {| pi := None; led_pin := PNone; display_q := None;
         menu := PList [PTuple [PStr "A"; PList [PInt 5]]];
         modemenu := None |} [RadioMenuMode_new] = Err TypeError.
Proof.
  split; [ reflexivity | ].
  apply (proj1 (_get_menu_items_error_exact
                  {| pi := None; led_pin := PNone; display_q := None;
                     menu := PList [PTuple [PStr "A"; PList [PInt 5]]];
                     modemenu := None |} [RadioMenuMode_new])).
  split; reflexivity.
Defined.
